(** * harp.gl: label pre-placement filter and OMV tile/world transforms

    A shallow embedding of

    - [@here/harp-mapview/lib/text/Placement.ts]
      ([computeViewDistance], [checkViewDistance], [getMaxViewDistance],
      [checkReadyForPlacement]), and
    - the OMV tile utilities of [@here/harp-omv-datasource] ([lat2tile],
      [createWorldTileTransformationCookie], [world2tile] and the class
      [OmvUtils] with [tile2world] and [world2tile]),

    together with the properties the specification states about them.  The
    deduplication of the text element state cache and the fading of labels
    by the text elements renderer, whose sources are not at hand, are
    modelled from the specification; every such definition says so.

    JavaScript numbers are read as real numbers (exact arithmetic).  In
    [Placement.ts] every operation maps finite numbers to finite numbers, so
    the type [R] is enough.  In the OMV transforms a division by zero or a
    logarithm of zero can be reached from finite inputs; there the numbers
    carry the IEEE special values (module [Num]).

    [THREE.Vector3] objects are mutable and may be shared, so they live in a
    heap and records hold references to them. *)

From Stdlib Require Import Reals Lra Lia ZArith List String Bool.
Import ListNotations.

Open Scope R_scope.

(** ** Comparisons of numbers as booleans *)

Definition Rleb (a b : R) : bool := if Rle_dec a b then true else false.
Definition Rltb (a b : R) : bool := if Rlt_dec a b then true else false.

(** ** Abrupt completion

    Reading a property of [undefined] throws a [TypeError]; code that may do
    so returns a [Completion]. *)

Inductive Completion (A : Type) : Type :=
| Normal (a : A)
| TypeError.

Arguments Normal {A} a.
Arguments TypeError {A}.

Definition bind {A B : Type} (c : Completion A) (k : A -> Completion B) : Completion B :=
  match c with
  | Normal a => k a
  | TypeError => TypeError
  end.

Notation "x <- c ;; k" := (bind c (fun x => k))
  (at level 61, c at next level, right associativity).

(** ** THREE.Vector3 (three.js r110), the methods [Placement.ts] calls *)

Module Vector3.

Record t : Type := mk { x : R; y : R; z : R }.

(** [a.add(b)] *)
Definition add (a b : t) : t := mk (x a + x b) (y a + y b) (z a + z b).

(** [a.dot(b)] *)
Definition dot (a b : t) : R := x a * x b + y a * y b + z a * z b.

(** [a.length()] *)
Definition length (a : t) : R := sqrt (x a * x a + y a * y a + z a * z a).

(** [a.multiplyScalar(s)] *)
Definition multiplyScalar (a : t) (s : R) : t := mk (x a * s) (y a * s) (z a * s).

(** [a.divideScalar(s)] is [a.multiplyScalar(1 / s)]. *)
Definition divideScalar (a : t) (s : R) : t := multiplyScalar a (1 / s).

(** [a.normalize()] is [a.divideScalar(a.length() || 1)]. *)
Definition normalize (a : t) : t :=
  divideScalar a (if Req_dec_T (length a) 0 then 1 else length a).

(** [a.distanceToSquared(b)] *)
Definition distanceToSquared (a b : t) : R :=
  let dx := x a - x b in
  let dy := y a - y b in
  let dz := z a - z b in
  dx * dx + dy * dy + dz * dz.

(** [a.distanceTo(b)] *)
Definition distanceTo (a b : t) : R := sqrt (distanceToSquared a b).

End Vector3.

(** ** The heap of Vector3 objects *)

Definition loc : Type := nat.

Record Heap : Type := mkHeap {
  next : loc;                 (* first address not yet allocated *)
  mem : loc -> Vector3.t
}.

(** [v.set(x, y, z)] on the object at [l]. *)
Definition heap_set (h : Heap) (l : loc) (v : Vector3.t) : Heap :=
  mkHeap (next h) (fun l' => if Nat.eqb l' l then v else mem h l').

(** [new THREE.Vector3(x, y, z)] *)
Definition heap_new (h : Heap) (v : Vector3.t) : loc * Heap :=
  (next h, mkHeap (S (next h)) (fun l' => if Nat.eqb l' (next h) then v else mem h l')).

(** ** The objects [Placement.ts] receives *)

(** [ProjectionType] of harp-geoutils. *)
Inductive ProjectionType : Type := Planar | Spherical.

Definition ProjectionType_eqb (a b : ProjectionType) : bool :=
  match a, b with
  | Planar, Planar | Spherical, Spherical => true
  | _, _ => false
  end.

(** [TextElement.points] is one vector or an array of vectors. *)
Inductive Points : Type :=
| SinglePoint (p : loc)
| PointArray (ps : list loc).

(** The fields of [TextElement] that the pre-placement filter and the
    deduplication read or write.  [key] and [priority] are the deduplication
    key and the priority of the specification's data model. *)
Record TextElement : Type := mkTextElement {
  key : string;
  priority : Z;
  visible : bool;
  minZoomLevel : option R;
  maxZoomLevel : option R;
  points : Points;
  position : loc;
  tileCenter : option loc
}.

Definition set_tileCenter (te : TextElement) (c : option loc) : TextElement :=
  mkTextElement (key te) (priority te) (visible te) (minZoomLevel te)
    (maxZoomLevel te) (points te) (position te) c.

(** The part of [Tile] the filter reads. *)
Record Tile : Type := mkTile { center : loc }.

(** The part of [MapView] the filter reads.  [updatePoiFromPoiTable] is
    [mapView.poiManager.updatePoiFromPoiTable]: it answers whether the POI
    table is ready and may rewrite the text element it is given.
    [cameraWorldDirection] is what [mapView.camera.getWorldDirection] stores
    in its target. *)
Record MapView : Type := mkMapView {
  worldCenter : loc;
  projectionType : ProjectionType;
  cameraWorldDirection : Vector3.t;
  zoomLevel : R;
  viewRangesMaximum : R;
  updatePoiFromPoiTable : TextElement -> bool * TextElement
}.

(** ** MathUtils.isClamped *)

(** Modelled from the spec: [MathUtils.isClamped] of harp-utils is not among
    the sources.  The specification reads its negation as "current zoom
    outside [minZoom, maxZoom]"; a bound that the text element leaves
    undefined does not restrict the value. *)
Definition isClamped (value : R) (lowerBound upperBound : option R) : bool :=
  match lowerBound with Some lo => Rleb lo value | None => true end
  && match upperBound with Some hi => Rleb value hi | None => true end.

(** ** Text element state cache: deduplication *)

(** The per-frame representative of every deduplication key, with the
    priority it was accepted at. *)
Record TextElementStateCache : Type := mkCache {
  representative : string -> option Z
}.

Definition emptyCache : TextElementStateCache := mkCache (fun _ => None).

Definition recordRepresentative (cache : TextElementStateCache) (te : TextElement)
  : TextElementStateCache :=
  mkCache (fun k => if String.eqb k (key te) then Some (priority te)
                    else representative cache k).

(** Modelled from the spec: [TextElementStateCache.deduplicateElement]; the
    class is not among the sources.  Section 4.3: "returns false if an
    equal-or-higher-priority instance of the same key was already accepted
    this frame (reject as duplicate), true otherwise, and records this
    candidate as the frame's representative for that key".  The specification
    gives [lastFrameNumber] no role. *)
Definition deduplicateElement (cache : TextElementStateCache) (te : TextElement)
    (lastFrameNumber : option Z) : bool * TextElementStateCache :=
  match representative cache (key te) with
  | Some p =>
      if (priority te <=? p)%Z then (false, cache)
      else (true, recordRepresentative cache te)
  | None => (true, recordRepresentative cache te)
  end.

(** ** Placement.ts *)

Module Placement.

(** [textElement.tileCenter!] *)
Definition tileCenterOf (te : TextElement) : Completion loc :=
  match tileCenter te with
  | Some l => Normal l
  | None => TypeError
  end.

(** [arr[i]] followed by a property read. *)
Definition index (ps : list loc) (i : nat) : Completion loc :=
  match nth_error ps i with
  | Some l => Normal l
  | None => TypeError
  end.

Definition computeViewDistance (h : Heap) (refPosition : loc) (textElement : TextElement)
  : Completion R :=
  match points textElement with
  | PointArray ps =>
      if Nat.ltb 1 (List.length ps) then
        p0 <- index ps 0 ;;
        c0 <- tileCenterOf textElement ;;
        let viewDistance0 :=
          Vector3.distanceTo (mem h refPosition) (Vector3.add (mem h p0) (mem h c0)) in
        p1 <- index ps (List.length ps - 1) ;;
        c1 <- tileCenterOf textElement ;;
        let viewDistance1 :=
          Vector3.distanceTo (mem h refPosition) (Vector3.add (mem h p1) (mem h c1)) in
        Normal (Rmin viewDistance0 viewDistance1)
      else
        c <- tileCenterOf textElement ;;
        Normal (Vector3.distanceTo (mem h refPosition)
                  (Vector3.add (mem h (position textElement)) (mem h c)))
  | SinglePoint _ =>
      c <- tileCenterOf textElement ;;
      Normal (Vector3.distanceTo (mem h refPosition)
                (Vector3.add (mem h (position textElement)) (mem h c)))
  end.

(** The constant of the angle check under spherical projection. *)
Definition facingThreshold : R := - (6 / 10).

(** The result is [Some d] for a number [d] and [None] for [undefined]. *)
Definition checkViewDistance (h : Heap) (textElement : TextElement) (mapView : MapView)
    (maxViewDistance : R) : Completion (option R) :=
  textDistance <- computeViewDistance h (worldCenter mapView) textElement ;;
  if negb (ProjectionType_eqb (projectionType mapView) Spherical) then
    Normal (if Rleb textDistance maxViewDistance then Some textDistance else None)
  else
    c <- tileCenterOf textElement ;;
    let tempTextElementPosition :=
      Vector3.normalize (Vector3.add (mem h (position textElement)) (mem h c)) in
    let cameraDir := cameraWorldDirection mapView in
    Normal (if Rltb (Vector3.dot tempTextElementPosition cameraDir) facingThreshold
               && Rleb textDistance maxViewDistance
            then Some textDistance else None).

Definition getMaxViewDistance (mapView : MapView) (farDistanceLimitRatio : R) : R :=
  viewRangesMaximum mapView * farDistanceLimitRatio.

Inductive PrePlacementResult : Type :=
| Ok
| NotReady
| Invisible
| TooFar
| Duplicate
| Count.

(** What a call leaves behind: the heap, the text element and the cache after
    the call, and the returned object [{ result, viewDistance }]. *)
Record Outcome : Type := mkOutcome {
  heapAfter : Heap;
  textElementAfter : TextElement;
  cacheAfter : TextElementStateCache;
  result : PrePlacementResult;
  viewDistance : option R
}.

(** The vector written to the tile-center cache. *)
Definition offsetTileCenter (h : Heap) (tile : Tile) (worldOffsetX : R) : Vector3.t :=
  let c := mem h (center tile) in
  Vector3.mk (Vector3.x c + worldOffsetX) (Vector3.y c) (Vector3.z c).

(** Lines 150-158: create the cache vector, or overwrite it in place. *)
Definition refreshTileCenter (h : Heap) (textElement : TextElement) (tile : Tile)
    (worldOffsetX : R) : Heap * TextElement :=
  match tileCenter textElement with
  | None =>
      let (l, h') := heap_new h (offsetTileCenter h tile worldOffsetX) in
      (h', set_tileCenter textElement (Some l))
  | Some l =>
      (heap_set h l (offsetTileCenter h tile worldOffsetX), textElement)
  end.

Definition checkReadyForPlacement (h : Heap) (textElement : TextElement) (tile : Tile)
    (worldOffsetX : R) (mapView : MapView) (textElementCache : TextElementStateCache)
    (maxViewDistance : option R) (lastFrameNumber : option Z) : Completion Outcome :=
  if negb (visible textElement) then
    Normal (mkOutcome h textElement textElementCache Invisible None)
  else
    let (ready, te1) := updatePoiFromPoiTable mapView textElement in
    if negb ready then
      Normal (mkOutcome h te1 textElementCache NotReady None)
    else if negb (visible te1)
            || negb (isClamped (zoomLevel mapView) (minZoomLevel te1) (maxZoomLevel te1))
    then
      Normal (mkOutcome h te1 textElementCache Invisible None)
    else
      let (h2, te2) := refreshTileCenter h te1 tile worldOffsetX in
      viewDistance <-
        match maxViewDistance with
        | None =>
            d <- computeViewDistance h2 (worldCenter mapView) te2 ;; Normal (Some d)
        | Some m => checkViewDistance h2 te2 mapView m
        end ;;
      match viewDistance with
      | None => Normal (mkOutcome h2 te2 textElementCache TooFar None)
      | Some d =>
          let (unique, cache') := deduplicateElement textElementCache te2 lastFrameNumber in
          if negb unique then
            Normal (mkOutcome h2 te2 cache' Duplicate None)
          else
            Normal (mkOutcome h2 te2 cache' Ok (Some d))
      end.

End Placement.

(** ** The pre-filter over the candidates of one frame *)

Module Frame.

Import Placement.

(** Modelled from the spec: a candidate of a frame.  Section 4.5, step 1:
    "Collect all candidates from all currently visible tiles"; the pre-filter
    of section 4.4 receives each candidate with its tile and that tile's
    world offset. *)
Record Candidate : Type := mkCandidate {
  element : TextElement;
  ownTile : Tile;
  tileWorldOffset : R
}.

(** Modelled from the spec: the candidate loop of
    [TextElementsRenderer.placeText], which is not among the sources.
    Section 4.5, step 3: "For each candidate in order: run Pre-Filter".  The
    candidates arrive in the order of step 2, each with its own tile and
    offset; the heap and the cache are handed from one call to the next.
    The result codes are returned in the order of the candidates. *)
Fixpoint prefilterAll (h : Heap) (candidates : list Candidate) (mapView : MapView)
    (cache : TextElementStateCache) (maxViewDistance : option R)
    (lastFrameNumber : option Z)
  : Completion (list PrePlacementResult) :=
  match candidates with
  | [] => Normal []
  | c :: rest =>
      o <- checkReadyForPlacement h (element c) (ownTile c) (tileWorldOffset c) mapView
             cache maxViewDistance lastFrameNumber ;;
      rs <- prefilterAll (heapAfter o) rest mapView (cacheAfter o)
              maxViewDistance lastFrameNumber ;;
      Normal (result o :: rs)
  end.


End Frame.

(** ** Fading of a label *)

Module Fade.

(** Modelled from the spec: the fade state machine of the text elements
    renderer ([RenderState] and [TextElementsRenderer] are not among the
    sources).  Section 4.5: FadingIn, "opacity rising from 0 toward 1 over a
    fixed fade duration"; Steady, "opacity 1"; FadingOut, "opacity falling
    from current value toward 0 [...] using the same rate"; Gone, "opacity
    reaches 0". *)
Inductive FadeState : Type := FadingIn | Steady | FadingOut | Gone.

(** Modelled from the spec: the fade part of the [LabelState] of section 3,
    "current opacity [0,1], fade direction". *)
Record LabelState : Type := mkLabelState {
  opacity : R;
  fade : FadeState
}.

(** Modelled from the spec: the renderer's view of one label.
    [lastFrameTime] is the clock value of the last frame; "a clock value of 0
    is reserved as uninitialized".  [label] is [None] while the label is not
    tracked. *)
Record Renderer : Type := mkRenderer {
  lastFrameTime : R;
  label : option LabelState
}.

Definition initialRenderer : Renderer := mkRenderer 0 None.

Definition clamp01 (o : R) : R := Rmax 0 (Rmin 1 o).

(** A rising opacity that has arrived at 1 is Steady. *)
Definition settleIn (o : R) : LabelState :=
  if Rle_dec 1 o then mkLabelState 1 Steady else mkLabelState o FadingIn.

(** A falling opacity that has arrived at 0 is Gone. *)
Definition settleOut (o : R) : LabelState :=
  if Rle_dec o 0 then mkLabelState 0 Gone else mkLabelState o FadingOut.

(** Modelled from the spec: one frame of the state machine of section 4.5
    for a label, [fadeTime] being the fade duration and [elapsed] the time
    since the last frame.  "A label not yet tracked enters FadingIn on first
    Ok placement" with "opacity 0"; a label that keeps its direction moves by
    [elapsed / fadeTime]; a label that "stops being Ok-placed this frame
    enters FadingOut, preserving current opacity", and one that "becomes
    Ok-placed again [...] reverses into FadingIn from its current opacity". *)
Definition updateFading (fadeTime elapsed : R) (accepted : bool) (s : option LabelState)
  : option LabelState :=
  match s, accepted with
  | None, true => Some (mkLabelState 0 FadingIn)
  | None, false => None
  | Some ls, true =>
      match fade ls with
      | FadingIn => Some (settleIn (clamp01 (opacity ls + elapsed / fadeTime)))
      | Steady => Some ls
      | FadingOut | Gone => Some (settleIn (opacity ls))
      end
  | Some ls, false =>
      match fade ls with
      | FadingOut => Some (settleOut (clamp01 (opacity ls - elapsed / fadeTime)))
      | Gone => Some ls
      | FadingIn | Steady => Some (settleOut (opacity ls))
      end
  end.

(** Modelled from the spec: what a frame submits to the text canvas for the
    label.  Steps 4 and 5 of section 4.5: an accepted label is pushed with
    its computed opacity; a tracked label that is not accepted is submitted
    "if still above zero opacity". *)
Definition submitted (accepted : bool) (s : option LabelState) : option R :=
  match s with
  | None => None
  | Some ls =>
      if accepted then Some (opacity ls)
      else if Rlt_dec 0 (opacity ls) then Some (opacity ls) else None
  end.

(** Modelled from the spec: [TextElementsRenderer.placeText] for one label at
    clock value [time].  A frame at clock value 0 is ignored; the first real
    frame has no elapsed time. *)
Definition placeText (fadeTime : R) (r : Renderer) (time : R) (accepted : bool)
  : Renderer * option R :=
  if Req_dec_T time 0 then (r, None)
  else
    let elapsed := if Req_dec_T (lastFrameTime r) 0 then 0 else time - lastFrameTime r in
    let s := updateFading fadeTime elapsed accepted (label r) in
    (mkRenderer time s, submitted accepted s).

(** A run of frames, each a clock value and whether the label is accepted;
    the submissions are returned frame by frame. *)
Fixpoint renderFrames (fadeTime : R) (r : Renderer) (frames : list (R * bool))
  : Renderer * list (option R) :=
  match frames with
  | [] => (r, [])
  | (time, accepted) :: rest =>
      let (r1, out) := placeText fadeTime r time accepted in
      let (r2, outs) := renderFrames fadeTime r1 rest in
      (r2, out :: outs)
  end.

End Fade.

(** ** Numbers with the IEEE special values

    Finite values are exact reals.  The two zeros are not told apart: a zero
    divisor counts as [+0]. *)

Module Num.

Inductive t : Type :=
| Fin (r : R)
| PInf
| NInf
| NaN.

Definition isFinite (a : t) : bool :=
  match a with Fin _ => true | _ => false end.

(** [Infinity] or [-Infinity], by the sign of a non-zero real. *)
Definition infOfSign (r : R) : t := if Rlt_dec 0 r then PInf else NInf.

Definition neg (a : t) : t :=
  match a with
  | Fin r => Fin (- r)
  | PInf => NInf
  | NInf => PInf
  | NaN => NaN
  end.

Definition add (a b : t) : t :=
  match a, b with
  | NaN, _ | _, NaN => NaN
  | Fin r, Fin s => Fin (r + s)
  | PInf, NInf | NInf, PInf => NaN
  | PInf, _ | _, PInf => PInf
  | NInf, _ | _, NInf => NInf
  end.

Definition sub (a b : t) : t := add a (neg b).

(** An infinity times a real. *)
Definition scaleInf (inf : t) (r : R) : t :=
  if Req_dec_T r 0 then NaN
  else if Rlt_dec 0 r then inf else neg inf.

Definition mul (a b : t) : t :=
  match a, b with
  | NaN, _ | _, NaN => NaN
  | Fin r, Fin s => Fin (r * s)
  | Fin r, PInf => scaleInf PInf r
  | Fin r, NInf => scaleInf NInf r
  | PInf, Fin s => scaleInf PInf s
  | NInf, Fin s => scaleInf NInf s
  | PInf, PInf | NInf, NInf => PInf
  | PInf, NInf | NInf, PInf => NInf
  end.

Definition div (a b : t) : t :=
  match a, b with
  | NaN, _ | _, NaN => NaN
  | Fin r, Fin s =>
      if Req_dec_T s 0 then
        (if Req_dec_T r 0 then NaN else infOfSign r)
      else Fin (r / s)
  | Fin _, PInf | Fin _, NInf => Fin 0
  | PInf, Fin s => if Rlt_dec s 0 then NInf else PInf
  | NInf, Fin s => if Rlt_dec s 0 then PInf else NInf
  | PInf, PInf | PInf, NInf | NInf, PInf | NInf, NInf => NaN
  end.

(** [a === b]: [NaN] is equal to nothing. *)
Definition eqb (a b : t) : bool :=
  match a, b with
  | Fin r, Fin s => if Req_dec_T r s then true else false
  | PInf, PInf | NInf, NInf => true
  | _, _ => false
  end.

Definition ofZ (n : Z) : t := Fin (IZR n).

(** [Math.PI] *)
Definition Math_PI : t := Fin PI.

(** [Math.log] *)
Definition Math_log (a : t) : t :=
  match a with
  | Fin r =>
      if Rlt_dec 0 r then Fin (ln r)
      else if Req_dec_T r 0 then NInf else NaN
  | PInf => PInf
  | NInf | NaN => NaN
  end.

(** [Math.log2] *)
Definition Math_log2 (a : t) : t := div (Math_log a) (Fin (ln 2)).

(** [Math.pow(2, a)] *)
Definition Math_pow2 (a : t) : t :=
  match a with
  | Fin r => Fin (Rpower 2 r)
  | PInf => PInf
  | NInf => Fin 0
  | NaN => NaN
  end.

(** [Math.cos] *)
Definition Math_cos (a : t) : t :=
  match a with
  | Fin r => Fin (cos r)
  | _ => NaN
  end.

(** [Math.tan], the quotient of sine and cosine. *)
Definition Math_tan (a : t) : t :=
  match a with
  | Fin r => div (Fin (sin r)) (Fin (cos r))
  | _ => NaN
  end.

(** [Math.floor] *)
Definition Math_floor (a : t) : t :=
  match a with
  | Fin r => Fin (IZR (Int_part r))
  | _ => a
  end.

(** [Math.round] rounds half up: it is the floor of [a + 0.5]. *)
Definition Math_round (a : t) : t := Math_floor (add a (Fin (1 / 2))).

End Num.

(** ** THREE.Vector2 *)

Module Vector2.

Record t : Type := mk { x : Num.t; y : Num.t }.

End Vector2.

(** ** OmvUtils *)

Module Omv.

Record WorldTileProjectionCookie : Type := mkCookie {
  extents : Num.t;
  top : Num.t;
  left : Num.t;
  scale : Num.t
}.

(** The fields of [OmvDecoder.DecodeInfo] that the transforms use:
    [geoBox.north], [geoBox.west], [tileKey.level], [adapterId] and the cached
    [worldTileProjectionCookie]. *)
Record DecodeInfo : Type := mkDecodeInfo {
  north : Num.t;
  west : Num.t;
  level : Num.t;
  adapterId : string;
  worldTileProjectionCookie : option WorldTileProjectionCookie
}.

Definition set_worldTileProjectionCookie (d : DecodeInfo)
    (c : option WorldTileProjectionCookie) : DecodeInfo :=
  mkDecodeInfo (north d) (west d) (level d) (adapterId d) c.

Definition lat2tile (lat zoom : Num.t) (func : Num.t -> Num.t) : Num.t :=
  let rad := Num.div (Num.mul lat Num.Math_PI) (Num.ofZ 180) in
  func
    (Num.mul
       (Num.div
          (Num.sub (Num.ofZ 1)
             (Num.div
                (Num.Math_log
                   (Num.add (Num.Math_tan rad) (Num.div (Num.ofZ 1) (Num.Math_cos rad))))
                Num.Math_PI))
          (Num.ofZ 2))
       (Num.Math_pow2 zoom)).

Section Constants.

(** [EarthConstants.EQUATORIAL_CIRCUMFERENCE] of harp-geoutils and
    [VTJsonDataAdapterId] of [VTJsonDataAdapter] are constants declared
    outside the sources. *)
Variable EQUATORIAL_CIRCUMFERENCE : R.
Variable VTJsonDataAdapterId : string.

Definition createWorldTileTransformationCookie (extents : Num.t) (decodeInfo : DecodeInfo)
  : WorldTileProjectionCookie :=
  let N := Num.Math_log2 extents in
  let scale := Num.Math_pow2 (Num.add (level decodeInfo) N) in
  mkCookie
    extents
    (lat2tile (north decodeInfo) (Num.add (level decodeInfo) N)
       (if String.eqb (adapterId decodeInfo) VTJsonDataAdapterId
        then Num.Math_round else Num.Math_floor))
    (Num.mul (Num.div (Num.add (west decodeInfo) (Num.ofZ 180)) (Num.ofZ 360)) scale)
    scale.

(** The statement that opens each transform: create the cookie unless one
    for these extents is cached.  It returns the decode info after the
    statement and the cookie then stored in it. *)
Definition ensureCookie (extents : Num.t) (decodeInfo : DecodeInfo)
  : DecodeInfo * WorldTileProjectionCookie :=
  match worldTileProjectionCookie decodeInfo with
  | Some c =>
      if negb (Num.eqb (Omv.extents c) extents) then
        let c' := createWorldTileTransformationCookie extents decodeInfo in
        (set_worldTileProjectionCookie decodeInfo (Some c'), c')
      else (decodeInfo, c)
  | None =>
      let c' := createWorldTileTransformationCookie extents decodeInfo in
      (set_worldTileProjectionCookie decodeInfo (Some c'), c')
  end.

(** The exported function [world2tile]. *)
Definition world2tile (extents : Num.t) (decodeInfo : DecodeInfo) (position : Vector2.t)
    (flipY : bool) : DecodeInfo * Vector2.t :=
  let (decodeInfo', c) := ensureCookie extents decodeInfo in
  let R := Num.Fin EQUATORIAL_CIRCUMFERENCE in
  (decodeInfo',
   Vector2.mk
     (Num.sub (Num.mul (Num.div (Vector2.x position) R) (scale c)) (left c))
     (Num.mul (if flipY then Num.ofZ (-1) else Num.ofZ 1)
        (Num.sub (Num.mul (Num.div (Vector2.y position) R) (scale c)) (top c)))).

End Constants.

(** The class [OmvUtils].  Each method returns the decode info after the call
    and the value set in [target]. *)
Module OmvUtils.

Section Constants.

Variable EQUATORIAL_CIRCUMFERENCE : R.
Variable VTJsonDataAdapterId : string.

Definition tile2world (extents : Num.t) (decodeInfo : DecodeInfo) (position : Vector2.t)
    (flipY : bool) : DecodeInfo * Vector2.t :=
  let (decodeInfo', c) := ensureCookie VTJsonDataAdapterId extents decodeInfo in
  let R := Num.Fin EQUATORIAL_CIRCUMFERENCE in
  (decodeInfo',
   Vector2.mk
     (Num.mul (Num.div (Num.add (left c) (Vector2.x position)) (scale c)) R)
     (Num.mul
        (Num.div
           (Num.add (top c)
              (if flipY then Num.neg (Vector2.y position) else Vector2.y position))
           (scale c))
        R)).

Definition world2tile (extents : Num.t) (decodeInfo : DecodeInfo) (position : Vector2.t)
    (flipY : bool) : DecodeInfo * Vector2.t :=
  let (decodeInfo', c) := ensureCookie VTJsonDataAdapterId extents decodeInfo in
  let R := Num.Fin EQUATORIAL_CIRCUMFERENCE in
  (decodeInfo',
   Vector2.mk
     (Num.sub (Num.mul (Num.div (Vector2.x position) R) (scale c)) (left c))
     (Num.mul (if flipY then Num.ofZ (-1) else Num.ofZ 1)
        (Num.sub (Num.mul (Num.div (Vector2.y position) R) (scale c)) (top c)))).

End Constants.

End OmvUtils.

End Omv.

(** ** The vocabulary of the specification *)

Module PlacementSpec.

Import Placement.

(** The text element as [updatePoiFromPoiTable] leaves it, and its answer. *)
Definition poiElement (mapView : MapView) (te : TextElement) : TextElement :=
  snd (updatePoiFromPoiTable mapView te).

Definition poiReady (mapView : MapView) (te : TextElement) : bool :=
  fst (updatePoiFromPoiTable mapView te).

(** The zoom test of step 3. *)
Definition inZoomRange (mapView : MapView) (te : TextElement) : bool :=
  isClamped (zoomLevel mapView) (minZoomLevel te) (maxZoomLevel te).

(** Steps 1 to 3 of section 4.4 let the candidate through. *)
Definition reachesDistanceCheck (mapView : MapView) (te : TextElement) : bool :=
  visible te && poiReady mapView te && visible (poiElement mapView te)
  && inZoomRange mapView (poiElement mapView te).

(** The heap and the text element once step 4 has refreshed the tile-center
    cache. *)
Definition heapAtDistanceCheck (h : Heap) (te : TextElement) (tile : Tile)
    (worldOffsetX : R) (mapView : MapView) : Heap :=
  fst (refreshTileCenter h (poiElement mapView te) tile worldOffsetX).

Definition elementAtDistanceCheck (h : Heap) (te : TextElement) (tile : Tile)
    (worldOffsetX : R) (mapView : MapView) : TextElement :=
  snd (refreshTileCenter h (poiElement mapView te) tile worldOffsetX).

(** Step 5 lets the candidate through: no threshold, or a number came back
    from [checkViewDistance]. *)
Definition distanceCheckPasses (h : Heap) (te : TextElement) (mapView : MapView)
    (maxViewDistance : option R) : bool :=
  match maxViewDistance with
  | None => true
  | Some m =>
      match checkViewDistance h te mapView m with
      | Normal (Some _) => true
      | _ => false
      end
  end.

(** The rejection order of section 4.4 as a decision list over the answers
    of the six tests. *)
Definition rejectionOrder (visibleBefore ready visibleAfter inZoom nearEnough unique : bool)
  : PrePlacementResult :=
  if negb visibleBefore then Invisible
  else if negb ready then NotReady
  else if negb visibleAfter || negb inZoom then Invisible
  else if negb nearEnough then TooFar
  else if negb unique then Duplicate
  else Ok.

(** Path-anchored: [points] is an array with more than one point. *)
Definition isPathAnchored (te : TextElement) : bool :=
  match points te with
  | PointArray ps => Nat.ltb 1 (List.length ps)
  | SinglePoint _ => false
  end.

Definition pathPoints (te : TextElement) : list loc :=
  match points te with
  | PointArray ps => ps
  | SinglePoint p => [p]
  end.

(** The distance from the object at [refPosition] to the object at [p]
    offset by the object at [c]. *)
Definition offsetDistance (h : Heap) (refPosition p c : loc) : R :=
  Vector3.distanceTo (mem h refPosition) (Vector3.add (mem h p) (mem h c)).

(** The view distance in the words of section 4.4, step 5: "for
    path-anchored labels, the minimum of distances from the view reference
    point to the path's first and last points [...]; for point-anchored
    labels, direct distance", every point offset by the tile center at [c]. *)
Definition specViewDistance (h : Heap) (refPosition : loc) (te : TextElement) (c : loc) : R :=
  if isPathAnchored te then
    Rmin (offsetDistance h refPosition (List.hd 0%nat (pathPoints te)) c)
         (offsetDistance h refPosition (List.last (pathPoints te) 0%nat) c)
  else offsetDistance h refPosition (position te) c.

(** The dot product of the angle check: the normalized world position of the
    text element against the camera direction. *)
Definition facingDot (h : Heap) (te : TextElement) (c : loc) (mapView : MapView) : R :=
  Vector3.dot
    (Vector3.normalize (Vector3.add (mem h (position te)) (mem h c)))
    (cameraWorldDirection mapView).

(** What step 5 hands on, given the tile center at [c]: the view distance,
    or nothing when the candidate is too far. *)
Definition checkedDistance (h : Heap) (te : TextElement) (c : loc) (mapView : MapView)
    (maxViewDistance : option R) : option R :=
  let d := specViewDistance h (worldCenter mapView) te c in
  match maxViewDistance with
  | None => Some d
  | Some m =>
      match projectionType mapView with
      | Planar => if Rleb d m then Some d else None
      | Spherical =>
          if Rltb (facingDot h te c mapView) facingThreshold && Rleb d m
          then Some d else None
      end
  end.

(** The outcome of [checkReadyForPlacement] once it is known that no read
    of the tile center can fail. *)
Definition expectedOutcome (h : Heap) (te : TextElement) (tile : Tile) (worldOffsetX : R)
    (mapView : MapView) (cache : TextElementStateCache) (maxViewDistance : option R)
    (lastFrameNumber : option Z) : Outcome :=
  let te1 := poiElement mapView te in
  let h2 := heapAtDistanceCheck h te tile worldOffsetX mapView in
  let te2 := elementAtDistanceCheck h te tile worldOffsetX mapView in
  if negb (visible te) then mkOutcome h te cache Invisible None
  else if negb (poiReady mapView te) then mkOutcome h te1 cache NotReady None
  else if negb (visible te1) || negb (inZoomRange mapView te1)
  then mkOutcome h te1 cache Invisible None
  else
    match tileCenter te2 with
    | None => mkOutcome h2 te2 cache TooFar None
    | Some c =>
        match checkedDistance h2 te2 c mapView maxViewDistance with
        | None => mkOutcome h2 te2 cache TooFar None
        | Some d =>
            if fst (deduplicateElement cache te2 lastFrameNumber)
            then mkOutcome h2 te2 (snd (deduplicateElement cache te2 lastFrameNumber))
                   Ok (Some d)
            else mkOutcome h2 te2 (snd (deduplicateElement cache te2 lastFrameNumber))
                   Duplicate None
        end
    end.

(** Rejections that come before the deduplication. *)
Definition earlyRejection (r : PrePlacementResult) : Prop :=
  r = NotReady \/ r = Invisible \/ r = TooFar.

Definition rejection (r : PrePlacementResult) : Prop :=
  earlyRejection r \/ r = Duplicate.

End PlacementSpec.

(** ** The vocabulary of the deduplication claim *)

Module FrameSpec.

Import Placement PlacementSpec Frame.







(** The result codes of candidates that share a key, against the answers
    [passed] of their steps 1 to 5: a candidate that does not pass is
    rejected before the deduplication; the first candidate that passes is Ok
    and every later one that passes is Duplicate.  [won] says that a
    candidate of the key was accepted already. *)
Fixpoint firstPassingWins (won : bool) (passed : list bool)
    (rs : list PrePlacementResult) : Prop :=
  match passed, rs with
  | [], [] => True
  | b :: passed', r :: rs' =>
      (if b then r = (if won then Duplicate else Ok) else earlyRejection r)
      /\ firstPassingWins (won || b) passed' rs'
  | _, _ => False
  end.

End FrameSpec.

Module FadeSpec.

Import Fade.

(** The states the machine can be in: the opacity is within [0,1], below 1
    while fading in, above 0 while fading out, and at its end value when
    Steady or Gone. *)
Definition consistent (ls : LabelState) : Prop :=
  match fade ls with
  | FadingIn => 0 <= opacity ls < 1
  | Steady => opacity ls = 1
  | FadingOut => 0 < opacity ls <= 1
  | Gone => opacity ls = 0
  end.

(** A tracked label has seen a real frame. *)
Definition tracked (r : Renderer) : Prop :=
  match label r with
  | None => True
  | Some ls => consistent ls /\ lastFrameTime r <> 0
  end.

(** Frames that follow clock value [t0] without going back in time, none at
    the reserved clock value 0, all with the same acceptance. *)
Fixpoint continues (t0 : R) (accepted : bool) (frames : list (R * bool)) : Prop :=
  match frames with
  | [] => True
  | (t, a) :: rest => t0 <= t /\ t <> 0 /\ a = accepted /\ continues t accepted rest
  end.

(** The clock value of the last frame of a run that starts after [t0]. *)
Fixpoint lastTime (t0 : R) (frames : list (R * bool)) : R :=
  match frames with
  | [] => t0
  | (t, _) :: rest => lastTime t rest
  end.

End FadeSpec.

Module OmvSpec.

Import Omv.

(** A cookie the transforms can invert: finite offsets and a finite,
    non-zero scale. *)
Definition invertible (c : WorldTileProjectionCookie) : Prop :=
  exists t l s, top c = Num.Fin t /\ left c = Num.Fin l /\ scale c = Num.Fin s /\ s <> 0.

Definition finitePosition (p : Vector2.t) : Prop :=
  exists px py, p = Vector2.mk (Num.Fin px) (Num.Fin py).

(** [EarthConstants.EQUATORIAL_CIRCUMFERENCE] in metres and
    [VTJsonDataAdapterId], as harp-geoutils and [VTJsonDataAdapter] declare
    them; used for the concrete instances only. *)
Definition earthCircumference : R := 40075016.6855784861531768177614.
Definition vtJsonId : string := "vt-json".

(** A decode info of level 0 whose box has its north-west corner at
    latitude 0 and longitude 0, without a cached cookie. *)
Definition freshDecodeInfo : DecodeInfo :=
  mkDecodeInfo (Num.Fin 0) (Num.Fin 0) (Num.Fin 0) "omv" None.

(** The same decode info with the cookie for extents 4096 cached:
    [scale = 2 ^ 0 * 4096], [top = 2048] and [left = 2048]. *)
Definition cachedDecodeInfo : DecodeInfo :=
  mkDecodeInfo (Num.Fin 0) (Num.Fin 0) (Num.Fin 0) "omv"
    (Some (mkCookie (Num.Fin 4096) (Num.Fin 2048) (Num.Fin 2048) (Num.Fin 4096))).

End OmvSpec.

(** ** OmvPointOfViewFeatureModifier *)

Module Pov.

(** The values a [MapEnv] holds ([Value] of harp-datasource-protocol). *)
Inductive Value : Type :=
| VString (s : string)
| VNumber (r : R)
| VBoolean (b : bool)
| VNull.

(** [env.entries], an object used as a map from property names to values. *)
Definition ValueMap : Type := string -> option Value.

(** [entries[name] = value] *)
Definition assign (entries : ValueMap) (name : string) (value : Value) : ValueMap :=
  fun n => if String.eqb n name then Some value else entries n.

(** A [MapEnv]: its own entries, and whatever else [lookup] consults (the
    class is declared outside the sources; [Parent] stands for the rest of
    its state). *)
Record MapEnv (Parent : Type) : Type := mkMapEnv {
  entries : ValueMap;
  parent : Parent
}.

Arguments mkMapEnv {Parent} entries parent.
Arguments entries {Parent} m.
Arguments parent {Parent} m.

(** [`${propName}:${cc}`] *)
Definition povName (propName cc : string) : string :=
  String.append propName (String.append ":" cc).

Section Modifier.

Variable Parent : Type.

(** [env.lookup(name)], [undefined] being [None]. *)
Variable lookup : MapEnv Parent -> string -> option Value.

(** [super.doProcessLineFeature] of [OmvGenericFeatureModifier], which
    answers whether the feature is kept. *)
Variable superDoProcessLineFeature : string -> MapEnv Parent -> bool.

(** [this.m_countriesPov] *)
Variable m_countriesPov : list string.

Definition isBoundary (layer : string) : bool := String.eqb layer "boundaries".

(** The [for ... of] loop over the country codes; what it writes to the
    console is left out. *)
Fixpoint getAlternativePov (env : MapEnv Parent) (countryCodes : list string)
    (propName : string) : option string :=
  match countryCodes with
  | [] => None
  | cc :: rest =>
      match lookup env (povName propName cc) with
      | Some (VString value) =>
          if Nat.ltb 0 (String.length value) then Some value
          else getAlternativePov env rest propName
      | _ => getAlternativePov env rest propName
      end
  end.

Definition updateEnvironment (env : MapEnv Parent) (countryCodes : list string)
    (propName : string) : MapEnv Parent :=
  match getAlternativePov env countryCodes propName with
  | Some value => mkMapEnv (assign (entries env) propName (VString value)) (parent env)
  | None => env
  end.

Definition rewriteEnvironment (layer : string) (env : MapEnv Parent) : MapEnv Parent :=
  if isBoundary layer then updateEnvironment env m_countriesPov "kind" else env.

(** The answer and the environment after the call. *)
Definition doProcessLineFeature (layer : string) (env : MapEnv Parent)
  : bool * MapEnv Parent :=
  let env' := rewriteEnvironment layer env in
  (superDoProcessLineFeature layer env', env').

End Modifier.

Arguments getAlternativePov {Parent} lookup env countryCodes propName.
Arguments updateEnvironment {Parent} lookup env countryCodes propName.
Arguments rewriteEnvironment {Parent} lookup m_countriesPov layer env.
Arguments doProcessLineFeature {Parent} lookup superDoProcessLineFeature m_countriesPov
  layer env.

(** A lookup that reads the environment's own entries. *)
Definition ownLookup (env : MapEnv unit) (name : string) : option Value := entries env name.

(** An environment of a disputed border: [kind] and two points of view. *)
Definition disputed : MapEnv unit :=
  mkMapEnv
    (fun name =>
       if String.eqb name "kind" then Some (VString "country")
       else if String.eqb name "kind:in" then Some (VString "disputed")
       else if String.eqb name "kind:pk" then Some (VString "")
       else None)
    tt.

(** A value that the loop of [getAlternativePov] returns: a string that is
    not empty. *)
Definition usable (v : option Value) : Prop :=
  exists s, v = Some (VString s) /\ s <> EmptyString.

End Pov.

(** ** The arithmetic [lat2tile] performs *)

Module LatSpec.

(** A latitude in radians: [(lat * Math.PI) / 180]. *)
Definition radians (lat : R) : R := lat * PI / 180.

(** The argument of the logarithm: [tan + 1 / cos]. *)
Definition tanPlusSec (r : R) : R := sin r / cos r + 1 / cos r.

(** The fraction of the way from the top of the map that [lat2tile]
    multiplies by [2 ^ zoom]: [(1 - log(tan + 1 / cos) / PI) / 2]. *)
Definition rowFraction (lat : R) : R :=
  (1 + - (ln (tanPlusSec (radians lat)) / PI)) / 2.

(** The function [x => x] as the rounding function of [lat2tile]. *)
Definition unrounded (v : Num.t) : Num.t := v.

End LatSpec.

(** ** Variants of the filter's inputs *)

Module PlacementVariants.

(** The text element with other [points]. *)
Definition withPoints (te : TextElement) (ps : Points) : TextElement :=
  mkTextElement (key te) (priority te) (visible te) (minZoomLevel te)
    (maxZoomLevel te) ps (position te) (tileCenter te).


(** The world position that step 4 and step 5 of the filter give a point
    label: its position offset by the tile center, itself offset by the
    world offset along x. *)
Definition worldPosition (h : Heap) (te : TextElement) (tile : Tile) (worldOffsetX : R)
  : Vector3.t :=
  Vector3.add (mem h (position te)) (Placement.offsetTileCenter h tile worldOffsetX).

(** The tile-center vector of the text element is none of the vectors the
    distance is computed from: the cached vector is a different object, or
    there is none cached and those vectors are allocated. *)
Definition cacheApart (h : Heap) (te : TextElement) (mv : MapView) : Prop :=
  match tileCenter te with
  | Some c => worldCenter mv <> c /\ position te <> c
  | None => (worldCenter mv < next h)%nat /\ (position te < next h)%nat
  end.

End PlacementVariants.

(** ** Concrete inputs

    The objects of the renderer's test fixture: the view is centred on the
    origin, the labels sit at the origin with their tile center at (0, 0, 1),
    and the POI manager answers that the table is ready. *)

Module Examples.

Definition origin : Vector3.t := Vector3.mk 0 0 0.

(** Addresses: 0 the world center, 1 the center of the tile, 2 the shared
    default tile center, 3 the default position, 4 and 5 the default path. *)
Definition heap : Heap :=
  mkHeap 6%nat (fun l =>
    match l with
    | 2%nat => Vector3.mk 0 0 1
    | 5%nat => Vector3.mk (1 / 10) (1 / 10) 0
    | _ => origin
    end).

Definition tile : Tile := mkTile 1%nat.

Definition poiLabel : TextElement :=
  mkTextElement "Text" 0%Z true None None (SinglePoint 3%nat) 3%nat (Some 2%nat).

Definition pathLabel : TextElement :=
  mkTextElement "Text" 0%Z true None None (PointArray [4%nat; 5%nat]) 4%nat (Some 2%nat).

(** The two labels of the deduplication scenario of section 8. *)
Definition label5 : TextElement :=
  mkTextElement "Text" 5%Z true None None (SinglePoint 3%nat) 3%nat (Some 2%nat).

Definition label3 : TextElement :=
  mkTextElement "Text" 3%Z true None None (SinglePoint 3%nat) 3%nat (Some 2%nat).

Definition mapView : MapView :=
  mkMapView 0%nat Planar (Vector3.mk 0 0 (-1)) 0 10000 (fun te => (true, te)).

(** The two labels as candidates of two tiles: the first of [tile], the
    second of a tile whose center is the vector at address 0, one world to
    the east. *)
Definition scenario : list Frame.Candidate :=
  [Frame.mkCandidate label5 tile 0; Frame.mkCandidate label3 (mkTile 0%nat) 1].

(** A frame in which a label of another key and the priority 4 is processed
    between the two. *)
Definition otherLabel : TextElement :=
  mkTextElement "Other" 4%Z true None None (SinglePoint 3%nat) 3%nat (Some 2%nat).

Definition frame : list Frame.Candidate :=
  [Frame.mkCandidate label5 tile 0; Frame.mkCandidate otherLabel tile 0;
   Frame.mkCandidate label3 (mkTile 0%nat) 1].

Definition globeView : MapView :=
  mkMapView 0%nat Spherical (Vector3.mk 0 0 (-1)) 0 10000 (fun te => (true, te)).

(** A POI table whose entry for the label says that it is not shown. *)
Definition hide (te : TextElement) : TextElement :=
  mkTextElement (key te) (priority te) false (minZoomLevel te) (maxZoomLevel te)
    (points te) (position te) (tileCenter te).

Definition hidingView : MapView :=
  mkMapView 0%nat Planar (Vector3.mk 0 0 (-1)) 0 10000 (fun te => (true, hide te)).

(** A label whose tile-center cache is the very vector of the tile. *)
Definition sharingLabel : TextElement :=
  mkTextElement "Text" 0%Z true None None (SinglePoint 3%nat) 3%nat (Some 1%nat).

(** A label on the unit sphere at (0, 0, 1), the vector at address 2, with
    no tile center cached yet; the camera of [globeView] looks along
    (0, 0, -1), at it. *)
Definition facingLabel : TextElement :=
  mkTextElement "Pole" 0%Z true None None (SinglePoint 2%nat) 2%nat None.

End Examples.

(** * Properties *)

(** ** Boolean comparisons *)

Lemma Rleb_true (a b : R) : Rleb a b = true <-> a <= b.
Proof. unfold Rleb. destruct (Rle_dec a b); split; intros; try assumption; try reflexivity; try discriminate; contradiction. Qed.

Lemma Rleb_false (a b : R) : Rleb a b = false <-> b < a.
Proof.
  unfold Rleb. destruct (Rle_dec a b); split; intros; try discriminate; try reflexivity; lra.
Qed.

Lemma Rltb_true (a b : R) : Rltb a b = true <-> a < b.
Proof. unfold Rltb. destruct (Rlt_dec a b); split; intros; try assumption; try reflexivity; try discriminate; contradiction. Qed.

Lemma Rltb_false (a b : R) : Rltb a b = false <-> b <= a.
Proof.
  unfold Rltb. destruct (Rlt_dec a b); split; intros; try discriminate; try reflexivity; lra.
Qed.

(** ** The pre-placement filter *)

Module PlacementProofs.

Import Placement PlacementSpec.

(** *** The tile-center cache *)

Lemma set_tileCenter_same (te : TextElement) (l : loc) :
  tileCenter te = Some l -> set_tileCenter te (Some l) = te.
Proof. destruct te; simpl; intros ->; reflexivity. Qed.

Lemma refreshTileCenter_spec (h : Heap) (te : TextElement) (tile : Tile) (off : R) :
  exists l,
    snd (refreshTileCenter h te tile off) = set_tileCenter te (Some l)
    /\ mem (fst (refreshTileCenter h te tile off)) l = offsetTileCenter h tile off
    /\ (forall l', l' <> l -> mem (fst (refreshTileCenter h te tile off)) l' = mem h l')
    /\ match tileCenter te with Some l0 => l = l0 | None => l = next h end.
Proof.
  unfold refreshTileCenter.
  destruct (tileCenter te) as [l0|] eqn:Htc; simpl.
  - exists l0. repeat split.
    + symmetry. now apply set_tileCenter_same.
    + now rewrite Nat.eqb_refl.
    + intros l' Hl'. apply Nat.eqb_neq in Hl'. now rewrite Hl'.
  - exists (next h). repeat split.
    + now rewrite Nat.eqb_refl.
    + intros l' Hl'. apply Nat.eqb_neq in Hl'. now rewrite Hl'.
Qed.

Lemma refreshTileCenter_defined (h : Heap) (te : TextElement) (tile : Tile) (off : R) :
  exists l, tileCenter (snd (refreshTileCenter h te tile off)) = Some l.
Proof.
  destruct (refreshTileCenter_spec h te tile off) as (l & -> & _).
  now exists l.
Qed.

(** *** The view distance *)

Lemma index_first (p : loc) (ps : list loc) : index (p :: ps) 0 = Normal p.
Proof. reflexivity. Qed.

Lemma nth_error_last (ps : list loc) (d : loc) :
  ps <> [] -> nth_error ps (List.length ps - 1) = Some (List.last ps d).
Proof.
  induction ps as [|p ps IH]; intros Hne; [congruence|].
  destruct ps as [|q ps]; [reflexivity|].
  change (List.last (p :: q :: ps) d) with (List.last (q :: ps) d).
  rewrite <- IH by discriminate.
  simpl. now rewrite Nat.sub_0_r.
Qed.

Lemma computeViewDistance_value (h : Heap) (refPosition : loc) (te : TextElement) (c : loc) :
  tileCenter te = Some c ->
  computeViewDistance h refPosition te = Normal (specViewDistance h refPosition te c).
Proof.
  intros Hc.
  unfold computeViewDistance, specViewDistance, isPathAnchored, pathPoints, tileCenterOf,
    offsetDistance.
  rewrite Hc.
  destruct (points te) as [p|ps]; [reflexivity|].
  destruct (Nat.ltb 1 (List.length ps)) eqn:Hlen; [|reflexivity].
  apply Nat.ltb_lt in Hlen.
  destruct ps as [|p0 ps]; [simpl in Hlen; lia|].
  unfold index.
  rewrite (nth_error_last (p0 :: ps) 0%nat) by discriminate.
  reflexivity.
Qed.

(** C3.  [computeViewDistance], for a text element whose tile center is set,
    returns the view distance of the specification: for a path-anchored
    element ([points] an array with more than one point) the minimum of the
    distances from the reference position to the first and to the last point
    of the path, each offset by the tile center; for any other element the
    distance from the reference position to the element's position offset by
    the tile center. *)
Theorem C3_computeViewDistance (h : Heap) (refPosition : loc) (te : TextElement) (c : loc) :
  tileCenter te = Some c ->
  (isPathAnchored te = true ->
   computeViewDistance h refPosition te =
   Normal (Rmin
     (Vector3.distanceTo (mem h refPosition)
        (Vector3.add (mem h (List.hd 0%nat (pathPoints te))) (mem h c)))
     (Vector3.distanceTo (mem h refPosition)
        (Vector3.add (mem h (List.last (pathPoints te) 0%nat)) (mem h c)))))
  /\ (isPathAnchored te = false ->
      computeViewDistance h refPosition te =
      Normal (Vector3.distanceTo (mem h refPosition)
                (Vector3.add (mem h (position te)) (mem h c))))
  /\ computeViewDistance h refPosition te = Normal (specViewDistance h refPosition te c).
Proof.
  intros Hc.
  pose proof (computeViewDistance_value h refPosition te c Hc) as Hv.
  repeat split; [intros Hp | intros Hp | exact Hv];
    rewrite Hv; unfold specViewDistance; rewrite Hp; reflexivity.
Qed.

(** *** The distance check *)

Lemma checkViewDistance_value (h : Heap) (te : TextElement) (mv : MapView) (m : R) (c : loc) :
  tileCenter te = Some c ->
  checkViewDistance h te mv m = Normal (checkedDistance h te c mv (Some m)).
Proof.
  intros Hc. unfold checkViewDistance, checkedDistance.
  rewrite (computeViewDistance_value h (worldCenter mv) te c Hc).
  unfold tileCenterOf. rewrite Hc.
  destruct (projectionType mv); reflexivity.
Qed.

Lemma distanceStep_value (h : Heap) (te : TextElement) (mv : MapView) (max : option R)
    (c : loc) :
  tileCenter te = Some c ->
  match max with
  | None => d <- computeViewDistance h (worldCenter mv) te ;; Normal (Some d)
  | Some m => checkViewDistance h te mv m
  end = Normal (checkedDistance h te c mv max).
Proof.
  intros Hc. destruct max as [m|].
  - now apply checkViewDistance_value.
  - rewrite (computeViewDistance_value h (worldCenter mv) te c Hc). reflexivity.
Qed.

(** *** The whole filter: it never throws *)

Lemma checkReadyForPlacement_outcome (h : Heap) (te : TextElement) (tile : Tile) (off : R)
    (mv : MapView) (cache : TextElementStateCache) (max : option R) (lfn : option Z) :
  checkReadyForPlacement h te tile off mv cache max lfn =
  Normal (expectedOutcome h te tile off mv cache max lfn).
Proof.
  unfold checkReadyForPlacement, expectedOutcome, heapAtDistanceCheck,
    elementAtDistanceCheck, poiReady, poiElement, inZoomRange.
  destruct (negb (visible te)); [reflexivity|].
  destruct (updatePoiFromPoiTable mv te) as [ready te1]; simpl fst; simpl snd.
  destruct (negb ready); [reflexivity|].
  destruct (negb (visible te1) || negb (isClamped _ _ _)); [reflexivity|].
  destruct (refreshTileCenter_defined h te1 tile off) as [c Hc].
  destruct (refreshTileCenter h te1 tile off) as [h2 te2]; simpl fst in *; simpl snd in *.
  rewrite Hc, (distanceStep_value h2 te2 mv max c Hc). simpl bind.
  destruct (checkedDistance h2 te2 c mv max) as [d|]; [|reflexivity].
  destruct (deduplicateElement cache te2 lfn) as [unique cache']; simpl.
  destruct unique; reflexivity.
Qed.

Lemma reaches_true (mv : MapView) (te : TextElement) :
  reachesDistanceCheck mv te = true <->
  visible te = true /\ poiReady mv te = true /\ visible (poiElement mv te) = true
  /\ inZoomRange mv (poiElement mv te) = true.
Proof.
  unfold reachesDistanceCheck. rewrite !andb_true_iff. tauto.
Qed.

(** The outcome of a candidate that steps 1 to 3 let through. *)
Lemma expectedOutcome_reached (h : Heap) (te : TextElement) (tile : Tile) (off : R)
    (mv : MapView) (cache : TextElementStateCache) (max : option R) (lfn : option Z) :
  reachesDistanceCheck mv te = true ->
  exists c,
    tileCenter (elementAtDistanceCheck h te tile off mv) = Some c
    /\ expectedOutcome h te tile off mv cache max lfn =
       let h2 := heapAtDistanceCheck h te tile off mv in
       let te2 := elementAtDistanceCheck h te tile off mv in
       match checkedDistance h2 te2 c mv max with
       | None => mkOutcome h2 te2 cache TooFar None
       | Some d =>
           if fst (deduplicateElement cache te2 lfn)
           then mkOutcome h2 te2 (snd (deduplicateElement cache te2 lfn)) Ok (Some d)
           else mkOutcome h2 te2 (snd (deduplicateElement cache te2 lfn)) Duplicate None
       end.
Proof.
  intros Hr. apply reaches_true in Hr. destruct Hr as (Hv & Hp & Hv1 & Hz).
  destruct (refreshTileCenter_defined h (poiElement mv te) tile off) as [c Hc].
  exists c. split; [exact Hc|].
  unfold expectedOutcome. rewrite Hv, Hp, Hv1, Hz. simpl.
  unfold elementAtDistanceCheck in *. rewrite Hc. reflexivity.
Qed.

(** The outcome of a candidate that steps 1 to 3 reject. *)
Lemma expectedOutcome_rejected (h : Heap) (te : TextElement) (tile : Tile) (off : R)
    (mv : MapView) (cache : TextElementStateCache) (max : option R) (lfn : option Z) :
  reachesDistanceCheck mv te = false ->
  expectedOutcome h te tile off mv cache max lfn =
  if negb (visible te) then mkOutcome h te cache Invisible None
  else if negb (poiReady mv te) then mkOutcome h (poiElement mv te) cache NotReady None
  else mkOutcome h (poiElement mv te) cache Invisible None.
Proof.
  unfold reachesDistanceCheck, expectedOutcome. intros Hr.
  destruct (visible te); [|reflexivity].
  destruct (poiReady mv te); [|reflexivity].
  destruct (visible (poiElement mv te)); [|reflexivity].
  destruct (inZoomRange mv (poiElement mv te)); [discriminate|reflexivity].
Qed.

(** Statements about a known outcome: split them and close every part by
    comparing constructors. *)
Ltac settle_outcome :=
  repeat match goal with
         | |- _ /\ _ => split
         | |- _ <-> _ => split
         | |- _ -> _ => intro
         | H : exists _, _ |- _ => destruct H
         | H : _ /\ _ |- _ => destruct H
         | H : _ \/ _ |- _ => destruct H
         end;
  try discriminate; try reflexivity; try congruence;
  try (eexists; split; reflexivity); try (eexists; reflexivity).

(** Two names for the threshold that was supplied are one. *)
Ltac same_threshold :=
  repeat match goal with
         | H : Some _ = Some _ |- _ => injection H as H; subst
         end.

Lemma distanceCheckPasses_checked (h : Heap) (te : TextElement) (mv : MapView)
    (max : option R) (c : loc) :
  tileCenter te = Some c ->
  distanceCheckPasses h te mv max =
  match checkedDistance h te c mv max with Some _ => true | None => false end.
Proof.
  intros Hc. unfold distanceCheckPasses. destruct max as [m|]; [|reflexivity].
  rewrite (checkViewDistance_value h te mv m c Hc). reflexivity.
Qed.

Lemma isClamped_bounds (value lo hi : R) :
  isClamped value (Some lo) (Some hi) = true <-> lo <= value <= hi.
Proof.
  unfold isClamped. rewrite andb_true_iff, !Rleb_true. tauto.
Qed.

(** C1.  [checkReadyForPlacement] returns normally, and its result code is
    the one the rejection order of section 4.4 selects: Invisible when the
    visibility flag is false; otherwise NotReady when
    [updatePoiFromPoiTable] answers false; otherwise Invisible when, on the
    element as [updatePoiFromPoiTable] left it, the visibility flag is false
    or the zoom level is not within the zoom range; only then TooFar when
    the distance check fails, then Duplicate when the deduplication refuses,
    and Ok when no test rejects. *)
Theorem C1_rejection_order (h : Heap) (te : TextElement) (tile : Tile) (off : R)
    (mv : MapView) (cache : TextElementStateCache) (max : option R) (lfn : option Z) :
  exists o,
    checkReadyForPlacement h te tile off mv cache max lfn = Normal o
    /\ result o =
       rejectionOrder
         (visible te)
         (poiReady mv te)
         (visible (poiElement mv te))
         (inZoomRange mv (poiElement mv te))
         (distanceCheckPasses (heapAtDistanceCheck h te tile off mv)
            (elementAtDistanceCheck h te tile off mv) mv max)
         (fst (deduplicateElement cache (elementAtDistanceCheck h te tile off mv) lfn)).
Proof.
  exists (expectedOutcome h te tile off mv cache max lfn).
  split; [apply checkReadyForPlacement_outcome|].
  destruct (reachesDistanceCheck mv te) eqn:Hr.
  - destruct (expectedOutcome_reached h te tile off mv cache max lfn Hr) as (c & Hc & ->).
    rewrite (distanceCheckPasses_checked _ _ mv max c Hc).
    apply reaches_true in Hr. destruct Hr as (-> & -> & -> & ->).
    cbv zeta. unfold rejectionOrder. simpl negb. simpl orb. cbv iota.
    destruct (checkedDistance _ _ c mv max); [|reflexivity].
    destruct (fst (deduplicateElement _ _ lfn)); reflexivity.
  - rewrite (expectedOutcome_rejected h te tile off mv cache max lfn Hr).
    unfold reachesDistanceCheck in Hr. unfold rejectionOrder.
    destruct (visible te); [|reflexivity].
    destruct (poiReady mv te); [|reflexivity].
    destruct (visible (poiElement mv te)); [|reflexivity].
    destruct (inZoomRange mv (poiElement mv te)); [discriminate|reflexivity].
Qed.

(** C9.  In the object [checkReadyForPlacement] returns, [viewDistance] is
    defined exactly when the result is Ok, and it is then the distance that
    [computeViewDistance] gives; on every rejection -- also on Duplicate,
    where a distance had been computed -- it is undefined. *)
Theorem C9_viewDistance_iff_ok (h : Heap) (te : TextElement) (tile : Tile) (off : R)
    (mv : MapView) (cache : TextElementStateCache) (max : option R) (lfn : option Z) :
  exists o,
    checkReadyForPlacement h te tile off mv cache max lfn = Normal o
    /\ ((exists d, viewDistance o = Some d) <-> result o = Ok)
    /\ (result o = NotReady \/ result o = Invisible \/ result o = TooFar
        \/ result o = Duplicate -> viewDistance o = None)
    /\ (result o = Ok ->
        exists d,
          viewDistance o = Some d
          /\ computeViewDistance (heapAtDistanceCheck h te tile off mv) (worldCenter mv)
               (elementAtDistanceCheck h te tile off mv) = Normal d)
    /\ (result o = Duplicate ->
        exists d,
          computeViewDistance (heapAtDistanceCheck h te tile off mv) (worldCenter mv)
            (elementAtDistanceCheck h te tile off mv) = Normal d).
Proof.
  exists (expectedOutcome h te tile off mv cache max lfn).
  split; [apply checkReadyForPlacement_outcome|].
  destruct (reachesDistanceCheck mv te) eqn:Hr.
  - destruct (expectedOutcome_reached h te tile off mv cache max lfn Hr) as (c & Hc & ->).
    cbv zeta.
    rewrite (computeViewDistance_value _ (worldCenter mv) _ c Hc).
    destruct (checkedDistance _ _ c mv max) as [d|] eqn:Hd.
    + assert (Hdv : d = specViewDistance (heapAtDistanceCheck h te tile off mv)
                          (worldCenter mv) (elementAtDistanceCheck h te tile off mv) c).
      { unfold checkedDistance in Hd.
        destruct max as [m|]; [destruct (projectionType mv)|];
          repeat match type of Hd with (if ?b then _ else _) = _ => destruct b end;
          congruence. }
      subst d.
      destruct (fst (deduplicateElement _ _ lfn)); simpl; settle_outcome.
    + simpl; settle_outcome.
  - rewrite (expectedOutcome_rejected h te tile off mv cache max lfn Hr).
    destruct (negb (visible te)); [|destruct (negb (poiReady mv te))]; simpl;
      settle_outcome.
Qed.

(** C4.  [checkReadyForPlacement] returns TooFar exactly when the candidate
    comes to the distance check, a [maxViewDistance] is supplied and
    [checkViewDistance] returns [undefined].  Under planar projection that is
    exactly when the computed view distance is strictly greater than
    [maxViewDistance], so a distance equal to the threshold passes.  Without
    a [maxViewDistance] the result is never TooFar. *)
Theorem C4_tooFar (h : Heap) (te : TextElement) (tile : Tile) (off : R)
    (mv : MapView) (cache : TextElementStateCache) (max : option R) (lfn : option Z) :
  exists o d,
    checkReadyForPlacement h te tile off mv cache max lfn = Normal o
    /\ computeViewDistance (heapAtDistanceCheck h te tile off mv) (worldCenter mv)
         (elementAtDistanceCheck h te tile off mv) = Normal d
    /\ (result o = TooFar <->
        reachesDistanceCheck mv te = true
        /\ exists m, max = Some m
             /\ checkViewDistance (heapAtDistanceCheck h te tile off mv)
                  (elementAtDistanceCheck h te tile off mv) mv m = Normal None)
    /\ (forall m, max = Some m -> projectionType mv = Planar ->
        (result o = TooFar <-> reachesDistanceCheck mv te = true /\ m < d))
    /\ (max = None -> result o <> TooFar).
Proof.
  destruct (refreshTileCenter_defined h (poiElement mv te) tile off) as [c Hc].
  fold (elementAtDistanceCheck h te tile off mv) in Hc.
  exists (expectedOutcome h te tile off mv cache max lfn).
  exists (specViewDistance (heapAtDistanceCheck h te tile off mv) (worldCenter mv)
            (elementAtDistanceCheck h te tile off mv) c).
  split; [apply checkReadyForPlacement_outcome|].
  split; [now apply computeViewDistance_value|].
  destruct (reachesDistanceCheck mv te) eqn:Hr.
  - destruct (expectedOutcome_reached h te tile off mv cache max lfn Hr) as (c' & Hc' & ->).
    assert (c' = c) by congruence. subst c'. clear Hc'.
    cbv zeta.
    assert (Hfail : forall m,
               checkViewDistance (heapAtDistanceCheck h te tile off mv)
                 (elementAtDistanceCheck h te tile off mv) mv m = Normal None <->
               checkedDistance (heapAtDistanceCheck h te tile off mv)
                 (elementAtDistanceCheck h te tile off mv) c mv (Some m) = None).
    { intros m. rewrite (checkViewDistance_value _ _ mv m c Hc). split; congruence. }
    setoid_rewrite Hfail. clear Hfail.
    destruct max as [m|].
    + unfold checkedDistance.
      destruct (projectionType mv) eqn:Hproj.
      * destruct (Rleb _ m) eqn:Hle.
        -- destruct (fst (deduplicateElement _ _ lfn)); simpl; settle_outcome;
             same_threshold; try (rewrite Hle in *; discriminate);
             apply Rleb_true in Hle; lra.
        -- simpl. settle_outcome; same_threshold.
           ++ exists m. rewrite Hle. split; reflexivity.
           ++ apply Rleb_false in Hle; lra.
      * destruct (Rltb _ facingThreshold && Rleb _ m) eqn:Hchk.
        -- destruct (fst (deduplicateElement _ _ lfn)); simpl; settle_outcome;
             same_threshold; rewrite Hchk in *; discriminate.
        -- simpl. settle_outcome. exists m. rewrite Hchk. split; reflexivity.
    + unfold checkedDistance.
      destruct (fst (deduplicateElement _ _ lfn)); simpl; settle_outcome.
  - rewrite (expectedOutcome_rejected h te tile off mv cache max lfn Hr).
    destruct (negb (visible te)); [|destruct (negb (poiReady mv te))]; simpl;
      settle_outcome.
Qed.

(** C5.  Under spherical projection and with a [maxViewDistance], a candidate
    that comes to the distance check is not rejected as TooFar exactly when
    its view distance does not exceed [maxViewDistance] and the dot product
    of its normalized world position (position plus tile center) with the
    camera direction is below -0.6. *)
Theorem C5_spherical_facing (h : Heap) (te : TextElement) (tile : Tile) (off : R)
    (mv : MapView) (cache : TextElementStateCache) (m : R) (lfn : option Z) :
  projectionType mv = Spherical ->
  reachesDistanceCheck mv te = true ->
  exists o d c,
    checkReadyForPlacement h te tile off mv cache (Some m) lfn = Normal o
    /\ tileCenter (elementAtDistanceCheck h te tile off mv) = Some c
    /\ computeViewDistance (heapAtDistanceCheck h te tile off mv) (worldCenter mv)
         (elementAtDistanceCheck h te tile off mv) = Normal d
    /\ (result o <> TooFar <->
        d <= m
        /\ Vector3.dot
             (Vector3.normalize
                (Vector3.add
                   (mem (heapAtDistanceCheck h te tile off mv)
                      (position (elementAtDistanceCheck h te tile off mv)))
                   (mem (heapAtDistanceCheck h te tile off mv) c)))
             (cameraWorldDirection mv) < - 0.6).
Proof.
  intros Hproj Hr.
  destruct (expectedOutcome_reached h te tile off mv cache (Some m) lfn Hr) as (c & Hc & Ho).
  exists (expectedOutcome h te tile off mv cache (Some m) lfn).
  exists (specViewDistance (heapAtDistanceCheck h te tile off mv) (worldCenter mv)
            (elementAtDistanceCheck h te tile off mv) c).
  exists c.
  split; [apply checkReadyForPlacement_outcome|].
  split; [exact Hc|].
  split; [now apply computeViewDistance_value|].
  rewrite Ho. cbv zeta. unfold checkedDistance. rewrite Hproj.
  fold (facingDot (heapAtDistanceCheck h te tile off mv)
          (elementAtDistanceCheck h te tile off mv) c mv).
  destruct (Rltb _ facingThreshold) eqn:Hdot; destruct (Rleb _ m) eqn:Hle; simpl;
    [apply Rltb_true in Hdot | apply Rltb_true in Hdot
     | apply Rltb_false in Hdot | apply Rltb_false in Hdot];
    [apply Rleb_true in Hle | apply Rleb_false in Hle
     | apply Rleb_true in Hle | apply Rleb_false in Hle];
    unfold facingThreshold in Hdot;
    try (destruct (fst (deduplicateElement _ _ lfn)); simpl);
    split; intros H; try (split; lra); try discriminate;
    try (exfalso; apply H; reflexivity); try (exfalso; lra).
Qed.

(** C3 at the default path label of the test fixture. *)
Lemma C3_computeViewDistance_witness :
  tileCenter Examples.pathLabel = Some 2%nat
  /\ computeViewDistance Examples.heap 0%nat Examples.pathLabel =
     Normal (specViewDistance Examples.heap 0%nat Examples.pathLabel 2%nat).
Proof.
  split; [reflexivity|].
  apply (C3_computeViewDistance Examples.heap 0%nat Examples.pathLabel 2%nat). reflexivity.
Defined.

(** C5 at the default POI label under spherical projection. *)
Lemma C5_spherical_facing_witness :
  projectionType Examples.globeView = Spherical
  /\ reachesDistanceCheck Examples.globeView Examples.poiLabel = true
  /\ exists o d c,
       checkReadyForPlacement Examples.heap Examples.poiLabel Examples.tile 0
         Examples.globeView emptyCache (Some 10000) None = Normal o
       /\ tileCenter (elementAtDistanceCheck Examples.heap Examples.poiLabel Examples.tile 0
                        Examples.globeView) = Some c
       /\ computeViewDistance
            (heapAtDistanceCheck Examples.heap Examples.poiLabel Examples.tile 0
               Examples.globeView)
            (worldCenter Examples.globeView)
            (elementAtDistanceCheck Examples.heap Examples.poiLabel Examples.tile 0
               Examples.globeView) = Normal d
       /\ (result o <> TooFar <->
           d <= 10000
           /\ Vector3.dot
                (Vector3.normalize
                   (Vector3.add
                      (mem (heapAtDistanceCheck Examples.heap Examples.poiLabel
                              Examples.tile 0 Examples.globeView)
                         (position (elementAtDistanceCheck Examples.heap Examples.poiLabel
                                      Examples.tile 0 Examples.globeView)))
                      (mem (heapAtDistanceCheck Examples.heap Examples.poiLabel
                              Examples.tile 0 Examples.globeView) c)))
                (cameraWorldDirection Examples.globeView) < - 0.6).
Proof.
  split; [reflexivity|]. split; [reflexivity|].
  apply (C5_spherical_facing Examples.heap Examples.poiLabel Examples.tile 0
           Examples.globeView emptyCache 10000 None); reflexivity.
Defined.

(** The default POI label of the fixture, at priority 0, is placed, and its
    view distance is 0. *)
Lemma poiLabel_placeable :
  exists o,
    checkReadyForPlacement Examples.heap Examples.poiLabel Examples.tile 0
      Examples.mapView emptyCache None None = Normal o
    /\ result o = Ok
    /\ viewDistance o = Some 0.
Proof.
  eexists. split; [reflexivity|]. split; [reflexivity|].
  cbn. f_equal. unfold Vector3.distanceTo, Vector3.distanceToSquared. cbn.
  transitivity (sqrt 0); [f_equal; ring | apply sqrt_0].
Qed.

(** *** What the call leaves behind *)

(** C8, as amended.  [checkReadyForPlacement] returns normally.  When the
    result is Invisible or NotReady no vector has been written, and the
    candidate is as it was before the call if its visibility flag was false,
    and as [updatePoiFromPoiTable] left it otherwise.  When the result is Ok,
    TooFar or Duplicate the candidate is as [updatePoiFromPoiTable] left it
    but for its [tileCenter], which refers to a vector holding
    (tile.center.x + worldOffsetX, tile.center.y, tile.center.z) as read
    before the write; that vector is the one the candidate had cached, or a
    fresh one, and no other vector has been written.  The center of the tile
    is unchanged unless the candidate's cached vector is the tile's own. *)
Theorem C8_frame_effect (h : Heap) (te : TextElement) (tile : Tile) (off : R)
    (mv : MapView) (cache : TextElementStateCache) (max : option R) (lfn : option Z) :
  exists o,
    checkReadyForPlacement h te tile off mv cache max lfn = Normal o
    /\ (result o = Invisible \/ result o = NotReady ->
        heapAfter o = h
        /\ (visible te = false -> textElementAfter o = te)
        /\ (visible te = true -> textElementAfter o = poiElement mv te))
    /\ (result o = Ok \/ result o = TooFar \/ result o = Duplicate ->
        exists c,
          textElementAfter o = set_tileCenter (poiElement mv te) (Some c)
          /\ mem (heapAfter o) c =
             Vector3.mk (Vector3.x (mem h (center tile)) + off)
               (Vector3.y (mem h (center tile))) (Vector3.z (mem h (center tile)))
          /\ (forall l, l <> c -> mem (heapAfter o) l = mem h l)
          /\ match tileCenter (poiElement mv te) with
             | Some c0 => c = c0
             | None => c = next h
             end)
    /\ (tileCenter (poiElement mv te) <> Some (center tile) ->
        (center tile < next h)%nat ->
        mem (heapAfter o) (center tile) = mem h (center tile)).
Proof.
  exists (expectedOutcome h te tile off mv cache max lfn).
  split; [apply checkReadyForPlacement_outcome|].
  destruct (refreshTileCenter_spec h (poiElement mv te) tile off)
    as (c & Hte2 & Hset & Hframe & Hwhich).
  fold (elementAtDistanceCheck h te tile off mv) in Hte2.
  fold (heapAtDistanceCheck h te tile off mv) in Hset, Hframe.
  destruct (reachesDistanceCheck mv te) eqn:Hr.
  - destruct (expectedOutcome_reached h te tile off mv cache max lfn Hr) as (c' & Hc' & ->).
    cbv zeta.
    assert (Hshape :
      forall o, heapAfter o = heapAtDistanceCheck h te tile off mv ->
                textElementAfter o = elementAtDistanceCheck h te tile off mv ->
                (result o = Invisible \/ result o = NotReady -> False) ->
      (result o = Invisible \/ result o = NotReady ->
        heapAfter o = h
        /\ (visible te = false -> textElementAfter o = te)
        /\ (visible te = true -> textElementAfter o = poiElement mv te))
      /\ (result o = Ok \/ result o = TooFar \/ result o = Duplicate ->
        exists c,
          textElementAfter o = set_tileCenter (poiElement mv te) (Some c)
          /\ mem (heapAfter o) c =
             Vector3.mk (Vector3.x (mem h (center tile)) + off)
               (Vector3.y (mem h (center tile))) (Vector3.z (mem h (center tile)))
          /\ (forall l, l <> c -> mem (heapAfter o) l = mem h l)
          /\ match tileCenter (poiElement mv te) with
             | Some c0 => c = c0
             | None => c = next h
             end)
      /\ (tileCenter (poiElement mv te) <> Some (center tile) ->
          (center tile < next h)%nat ->
          mem (heapAfter o) (center tile) = mem h (center tile))).
    { intros o Hh Hte Hres. rewrite Hh, Hte. split; [intros H; destruct (Hres H)|].
      split.
      - intros _. exists c. repeat split; assumption.
      - intros Hshare Hold. apply Hframe. intros Heq.
        destruct (tileCenter (poiElement mv te)) as [c0|].
        + apply Hshare. congruence.
        + lia. }
    destruct (checkedDistance _ _ c' mv max);
      [destruct (fst (deduplicateElement _ _ lfn))|];
      apply Hshape; try reflexivity; simpl; intros [H|H]; discriminate.
  - rewrite (expectedOutcome_rejected h te tile off mv cache max lfn Hr).
    unfold reachesDistanceCheck in Hr.
    destruct (visible te) eqn:Hv; simpl;
      [destruct (poiReady mv te) eqn:Hp; simpl|];
      (split; [intros _; repeat split; intros; congruence|]);
      (split; [intros [H|[H|H]]; discriminate | intros; reflexivity]).
Qed.

(** The claim C8 as it stands fails: with a POI table that hides the label,
    the result is Invisible and the candidate's visibility flag, true before
    the call, is false after it. *)
Lemma C8_counterexample :
  exists o,
    checkReadyForPlacement Examples.heap Examples.poiLabel Examples.tile 0
      Examples.hidingView emptyCache None None = Normal o
    /\ result o = Invisible
    /\ visible Examples.poiLabel = true
    /\ visible (textElementAfter o) = false.
Proof.
  eexists. split; [reflexivity|]. repeat split.
Qed.

(** When the candidate's cached vector is the tile's own center and the
    world offset is not zero, the write of lines 150-158 moves the center of
    the tile. *)
Lemma shared_tile_center_is_overwritten :
  exists o,
    checkReadyForPlacement Examples.heap Examples.sharingLabel Examples.tile 1
      Examples.mapView emptyCache None None = Normal o
    /\ mem Examples.heap (center Examples.tile) = Vector3.mk 0 0 0
    /\ mem (heapAfter o) (center Examples.tile) = Vector3.mk (0 + 1) 0 0.
Proof.
  rewrite checkReadyForPlacement_outcome. eexists. split; [reflexivity|].
  split; reflexivity.
Qed.

End PlacementProofs.

(** ** Deduplication within a frame *)

Module FrameProofs.

Import Placement PlacementSpec PlacementProofs Frame FrameSpec.

Section SharedKey.

Variable mv : MapView.
Variable max : option R.
Variable lfn : option Z.
Variable k : string.






End SharedKey.

(** *** What [firstPassingWins] says of the result codes *)



Lemma firstPassingWins_length (passed : list bool) :
  forall won rs, firstPassingWins won passed rs -> List.length rs = List.length passed.
Proof.
  induction passed as [|b passed IH]; intros won [|r rs] H; cbn in H; try contradiction.
  - reflexivity.
  - destruct H as [_ H]. cbn [List.length]. f_equal. exact (IH _ _ H).
Qed.







(** The scenario of section 8: two labels with the same key and the
    priorities 5 and 3, both placeable, here of two tiles; the first is Ok
    and the second is Duplicate.  A label of another key that is processed
    between them is Ok as well. *)
Lemma deduplication_scenario :
  prefilterAll Examples.heap Examples.scenario Examples.mapView emptyCache None None
  = Normal [Ok; Duplicate]
  /\ prefilterAll Examples.heap Examples.frame Examples.mapView emptyCache None None
     = Normal [Ok; Ok; Duplicate].
Proof. split; reflexivity. Qed.


End FrameProofs.

(** ** Fading *)

Module FadeProofs.

Import Fade FadeSpec.

(** *** Arithmetic of the fade rate *)

Lemma rate_nonneg (D e : R) : 0 < D -> 0 <= e -> 0 <= e / D.
Proof.
  intros HD He. unfold Rdiv. apply Rmult_le_pos; [exact He|].
  left. now apply Rinv_0_lt_compat.
Qed.

Lemma rate_pos (D e : R) : 0 < D -> 0 < e -> 0 < e / D.
Proof.
  intros HD He. unfold Rdiv. apply Rmult_lt_0_compat; [exact He|].
  now apply Rinv_0_lt_compat.
Qed.

Lemma rate_split (D a b c : R) : (a - c) / D = (b - c) / D + (a - b) / D.
Proof. unfold Rdiv. ring. Qed.

Lemma rate_whole (D : R) : 0 < D -> D / D = 1.
Proof. intros HD. unfold Rdiv. apply Rinv_r. lra. Qed.

Lemma clamp01_range (o : R) : 0 <= clamp01 o <= 1.
Proof.
  unfold clamp01, Rmax, Rmin.
  destruct (Rle_dec 1 o); destruct (Rle_dec 0 _); lra.
Qed.

Lemma clamp01_inside (o : R) : 0 <= o <= 1 -> clamp01 o = o.
Proof.
  intros Ho. unfold clamp01, Rmax, Rmin.
  destruct (Rle_dec 1 o); destruct (Rle_dec 0 _); lra.
Qed.

Lemma clamp01_above (o : R) : 1 <= o -> clamp01 o = 1.
Proof.
  intros Ho. unfold clamp01, Rmax, Rmin.
  destruct (Rle_dec 1 o); destruct (Rle_dec 0 _); lra.
Qed.

Lemma clamp01_below (o : R) : o <= 0 -> clamp01 o = 0.
Proof.
  intros Ho. unfold clamp01, Rmax, Rmin.
  destruct (Rle_dec 1 o); destruct (Rle_dec 0 _); lra.
Qed.

(** *** The states stay consistent *)

Lemma settleIn_consistent (o : R) : 0 <= o -> consistent (settleIn o).
Proof.
  intros Ho. unfold settleIn, consistent.
  destruct (Rle_dec 1 o); simpl; lra.
Qed.

Lemma settleOut_consistent (o : R) : o <= 1 -> consistent (settleOut o).
Proof.
  intros Ho. unfold settleOut, consistent.
  destruct (Rle_dec o 0); simpl; lra.
Qed.

Lemma consistent_range (ls : LabelState) : consistent ls -> 0 <= opacity ls <= 1.
Proof.
  unfold consistent. destruct (fade ls); lra.
Qed.

Lemma updateFading_consistent (D e : R) (a : bool) (s : option LabelState) :
  (forall ls, s = Some ls -> consistent ls) ->
  forall ls', updateFading D e a s = Some ls' -> consistent ls'.
Proof.
  intros Hs ls' Hup. unfold updateFading in Hup.
  destruct s as [ls|].
  - pose proof (consistent_range ls (Hs ls eq_refl)) as Hr.
    pose proof (Hs ls eq_refl) as Hc.
    destruct a; destruct (fade ls) eqn:Hf; injection Hup as <-;
      try exact Hc;
      try (apply settleIn_consistent; first [apply clamp01_range | lra]);
      try (apply settleOut_consistent; first [apply clamp01_range | lra]).
  - destruct a; [injection Hup as <-|discriminate].
    unfold consistent; simpl; lra.
Qed.

Lemma placeText_tracked (D : R) (r : Renderer) (t : R) (a : bool) :
  tracked r -> tracked (fst (placeText D r t a)).
Proof.
  intros Hr. unfold placeText.
  destruct (Req_dec_T t 0) as [Ht|Ht]; [exact Hr|].
  simpl. unfold tracked. simpl.
  destruct (updateFading D _ a (label r)) as [ls'|] eqn:Hup; [|exact I].
  split; [|exact Ht].
  eapply updateFading_consistent; [|exact Hup].
  intros ls Hls. unfold tracked in Hr. rewrite Hls in Hr. apply Hr.
Qed.

Lemma renderFrames_cons (D : R) (r : Renderer) (t : R) (a : bool) (rest : list (R * bool)) :
  renderFrames D r ((t, a) :: rest) =
  (fst (renderFrames D (fst (placeText D r t a)) rest),
   snd (placeText D r t a) :: snd (renderFrames D (fst (placeText D r t a)) rest)).
Proof.
  simpl. destruct (placeText D r t a) as [r1 out]. simpl.
  destruct (renderFrames D r1 rest) as [r2 outs]. reflexivity.
Qed.

Lemma renderFrames_tracked (D : R) (frames : list (R * bool)) :
  forall r, tracked r -> tracked (fst (renderFrames D r frames)).
Proof.
  induction frames as [|[t a] rest IH]; intros r Hr; [exact Hr|].
  rewrite renderFrames_cons. simpl. apply IH. now apply placeText_tracked.
Qed.

Lemma initial_tracked : tracked initialRenderer.
Proof. exact I. Qed.

(** *** The opacity that is submitted is within [0,1] *)

Lemma placeText_bounded (D : R) (r : Renderer) (t : R) (a : bool) (o : R) :
  tracked r -> snd (placeText D r t a) = Some o -> 0 <= o <= 1.
Proof.
  intros Hr Hout.
  pose proof (placeText_tracked D r t a Hr) as Hr'.
  unfold placeText in *.
  destruct (Req_dec_T t 0); [discriminate|].
  simpl in *. unfold tracked in Hr'. simpl in Hr'. unfold submitted in Hout.
  destruct (updateFading D _ a (label r)) as [ls'|]; [|discriminate].
  destruct Hr' as [Hc _]. apply consistent_range in Hc.
  destruct a; [|destruct (Rlt_dec 0 (opacity ls'))]; try discriminate;
    injection Hout as <-; exact Hc.
Qed.

Lemma renderFrames_bounded (D : R) (frames : list (R * bool)) :
  forall r, tracked r ->
    Forall (fun out => forall o, out = Some o -> 0 <= o <= 1)
      (snd (renderFrames D r frames)).
Proof.
  induction frames as [|[t a] rest IH]; intros r Hr; [constructor|].
  rewrite renderFrames_cons. simpl. constructor.
  - intros o Ho. now apply (placeText_bounded D r t a).
  - apply IH. now apply placeText_tracked.
Qed.

(** *** Frames of a tracked label *)

Lemma placeText_ignored (D : R) (r : Renderer) (a : bool) : placeText D r 0 a = (r, None).
Proof.
  unfold placeText. destruct (Req_dec_T 0 0) as [_|H]; [reflexivity|now destruct H].
Qed.

Lemma placeText_first (D : R) (t : R) :
  t <> 0 ->
  placeText D initialRenderer t true =
  (mkRenderer t (Some (mkLabelState 0 FadingIn)), Some 0).
Proof.
  intros Ht. unfold placeText.
  destruct (Req_dec_T t 0) as [H|_]; [contradiction|]. reflexivity.
Qed.

Lemma placeText_real (D : R) (r : Renderer) (t : R) (a : bool) :
  t <> 0 -> lastFrameTime r <> 0 ->
  placeText D r t a =
  (mkRenderer t (updateFading D (t - lastFrameTime r) a (label r)),
   submitted a (updateFading D (t - lastFrameTime r) a (label r))).
Proof.
  intros Ht Hl. unfold placeText.
  destruct (Req_dec_T t 0) as [H|_]; [contradiction|].
  destruct (Req_dec_T (lastFrameTime r) 0) as [H|_]; [contradiction|]. reflexivity.
Qed.

Lemma settleIn_clamp (x : R) : 0 <= x -> settleIn (clamp01 x) = settleIn x.
Proof.
  intros Hx. destruct (Rle_dec 1 x) as [H1|H1].
  - rewrite clamp01_above by exact H1. unfold settleIn.
    destruct (Rle_dec 1 1); [|lra]. destruct (Rle_dec 1 x); [reflexivity|contradiction].
  - rewrite clamp01_inside by lra. reflexivity.
Qed.

Lemma settleOut_clamp (x : R) : x <= 1 -> settleOut (clamp01 x) = settleOut x.
Proof.
  intros Hx. destruct (Rle_dec x 0) as [H0|H0].
  - rewrite clamp01_below by exact H0. unfold settleOut.
    destruct (Rle_dec 0 0); [|lra]. destruct (Rle_dec x 0); [reflexivity|contradiction].
  - rewrite clamp01_inside by lra. reflexivity.
Qed.

Lemma settleIn_below (x : R) : x < 1 -> settleIn x = mkLabelState x FadingIn.
Proof. intros Hx. unfold settleIn. destruct (Rle_dec 1 x); [lra|reflexivity]. Qed.

Lemma settleIn_done (x : R) : 1 <= x -> settleIn x = mkLabelState 1 Steady.
Proof. intros Hx. unfold settleIn. destruct (Rle_dec 1 x); [reflexivity|contradiction]. Qed.

Lemma settleOut_above (x : R) : 0 < x -> settleOut x = mkLabelState x FadingOut.
Proof. intros Hx. unfold settleOut. destruct (Rle_dec x 0); [lra|reflexivity]. Qed.

Lemma settleOut_done (x : R) : x <= 0 -> settleOut x = mkLabelState 0 Gone.
Proof. intros Hx. unfold settleOut. destruct (Rle_dec x 0); [reflexivity|contradiction]. Qed.

(** A frame of a label that is fading in and stays accepted. *)
Lemma fadingIn_frame (D : R) (r : Renderer) (t o : R) :
  0 < D -> t <> 0 -> lastFrameTime r <> 0 -> lastFrameTime r <= t ->
  label r = Some (mkLabelState o FadingIn) -> 0 <= o ->
  placeText D r t true =
  (mkRenderer t (Some (settleIn (o + (t - lastFrameTime r) / D))),
   Some (opacity (settleIn (o + (t - lastFrameTime r) / D)))).
Proof.
  intros HD Ht Hl Hle Hls Ho.
  rewrite placeText_real by assumption. rewrite Hls. simpl.
  rewrite settleIn_clamp; [reflexivity|].
  pose proof (rate_nonneg D (t - lastFrameTime r) HD). lra.
Qed.

(** A frame of a label that is fading out and stays unaccepted. *)
Lemma fadingOut_frame (D : R) (r : Renderer) (t o : R) :
  0 < D -> t <> 0 -> lastFrameTime r <> 0 -> lastFrameTime r <= t ->
  label r = Some (mkLabelState o FadingOut) -> o <= 1 ->
  fst (placeText D r t false) =
  mkRenderer t (Some (settleOut (o - (t - lastFrameTime r) / D))).
Proof.
  intros HD Ht Hl Hle Hls Ho.
  rewrite placeText_real by assumption. rewrite Hls. simpl.
  rewrite settleOut_clamp; [reflexivity|].
  pose proof (rate_nonneg D (t - lastFrameTime r) HD). lra.
Qed.

Lemma steady_frame (D : R) (r : Renderer) (t : R) :
  t <> 0 -> lastFrameTime r <> 0 ->
  label r = Some (mkLabelState 1 Steady) ->
  placeText D r t true = (mkRenderer t (Some (mkLabelState 1 Steady)), Some 1).
Proof.
  intros Ht Hl Hls. rewrite placeText_real by assumption. rewrite Hls. reflexivity.
Qed.

Lemma gone_frame (D : R) (r : Renderer) (t : R) :
  t <> 0 -> lastFrameTime r <> 0 ->
  label r = Some (mkLabelState 0 Gone) ->
  fst (placeText D r t false) = mkRenderer t (Some (mkLabelState 0 Gone)).
Proof.
  intros Ht Hl Hls. rewrite placeText_real by assumption. rewrite Hls. reflexivity.
Qed.

Lemma continues_lastTime (a : bool) (frames : list (R * bool)) :
  forall t0, continues t0 a frames -> t0 <= lastTime t0 frames.
Proof.
  induction frames as [|[t b] rest IH]; intros t0 Hc; simpl; [lra|].
  destruct Hc as (Hle & _ & _ & Hrest). specialize (IH t Hrest). lra.
Qed.

(** *** The fade arrives *)

Lemma steady_stays (D : R) (frames : list (R * bool)) :
  forall r, lastFrameTime r <> 0 -> label r = Some (mkLabelState 1 Steady) ->
    continues (lastFrameTime r) true frames ->
    label (fst (renderFrames D r frames)) = Some (mkLabelState 1 Steady).
Proof.
  induction frames as [|[t a] rest IH]; intros r Hl Hls Hc; [exact Hls|].
  destruct Hc as (Hle & Ht & -> & Hrest).
  rewrite renderFrames_cons. simpl fst.
  rewrite steady_frame by assumption. simpl fst.
  apply IH; simpl; auto.
Qed.

Lemma gone_stays (D : R) (frames : list (R * bool)) :
  forall r, lastFrameTime r <> 0 -> label r = Some (mkLabelState 0 Gone) ->
    continues (lastFrameTime r) false frames ->
    label (fst (renderFrames D r frames)) = Some (mkLabelState 0 Gone).
Proof.
  induction frames as [|[t a] rest IH]; intros r Hl Hls Hc; [exact Hls|].
  destruct Hc as (Hle & Ht & -> & Hrest).
  rewrite renderFrames_cons. simpl fst.
  rewrite gone_frame by assumption.
  apply IH; simpl; auto.
Qed.

(** A label that fades in from opacity [o] and stays accepted is Steady at
    opacity 1 as soon as the time that went by covers the rest of the way. *)
Lemma fadingIn_arrives (D : R) (frames : list (R * bool)) :
  0 < D ->
  forall r o, lastFrameTime r <> 0 -> label r = Some (mkLabelState o FadingIn) ->
    0 <= o < 1 ->
    continues (lastFrameTime r) true frames ->
    1 <= o + (lastTime (lastFrameTime r) frames - lastFrameTime r) / D ->
    label (fst (renderFrames D r frames)) = Some (mkLabelState 1 Steady).
Proof.
  intros HD.
  induction frames as [|[t a] rest IH]; intros r o Hl Hls Ho Hc Hfar.
  - simpl in Hfar. unfold Rdiv in Hfar. rewrite Rminus_diag, Rmult_0_l in Hfar. lra.
  - destruct Hc as (Hle & Ht & -> & Hrest).
    rewrite renderFrames_cons. simpl fst.
    rewrite (fadingIn_frame D r t o) by (try assumption; lra). simpl fst.
    simpl lastTime in Hfar.
    rewrite (rate_split D _ t) in Hfar.
    pose proof (rate_nonneg D (t - lastFrameTime r) HD) as He.
    destruct (Rle_dec 1 (o + (t - lastFrameTime r) / D)) as [Hdone|Hnot].
    + rewrite settleIn_done by exact Hdone.
      apply steady_stays; simpl; auto.
    + rewrite settleIn_below by lra.
      apply (IH _ (o + (t - lastFrameTime r) / D)); simpl; auto; lra.
Qed.

(** A label that fades out from opacity [o] and stays unaccepted is Gone at
    opacity 0 as soon as the time that went by covers the rest of the way. *)
Lemma fadingOut_arrives (D : R) (frames : list (R * bool)) :
  0 < D ->
  forall r o, lastFrameTime r <> 0 -> label r = Some (mkLabelState o FadingOut) ->
    0 < o <= 1 ->
    continues (lastFrameTime r) false frames ->
    o - (lastTime (lastFrameTime r) frames - lastFrameTime r) / D <= 0 ->
    label (fst (renderFrames D r frames)) = Some (mkLabelState 0 Gone).
Proof.
  intros HD.
  induction frames as [|[t a] rest IH]; intros r o Hl Hls Ho Hc Hfar.
  - simpl in Hfar. unfold Rdiv in Hfar. rewrite Rminus_diag, Rmult_0_l in Hfar. lra.
  - destruct Hc as (Hle & Ht & -> & Hrest).
    rewrite renderFrames_cons. simpl fst.
    rewrite (fadingOut_frame D r t o) by (try assumption; lra).
    simpl lastTime in Hfar.
    rewrite (rate_split D _ t) in Hfar.
    pose proof (rate_nonneg D (t - lastFrameTime r) HD) as He.
    destruct (Rle_dec (o - (t - lastFrameTime r) / D) 0) as [Hdone|Hnot].
    + rewrite settleOut_done by exact Hdone.
      apply gone_stays; simpl; auto.
    + rewrite settleOut_above by lra.
      apply (IH _ (o - (t - lastFrameTime r) / D)); simpl; auto; lra.
Qed.

(** *** The claims *)

(** The three frames that follow the first real frame at clock value 1. *)
Lemma fade_in_after_first_frame (D : R) :
  0 < D ->
  snd (renderFrames D (mkRenderer 1 (Some (mkLabelState 0 FadingIn)))
         [(1 + D / 3, true); (1 + D / 2, true); (1 + D, true)])
  = [Some (1 / 3); Some (1 / 2); Some 1].
Proof.
  intros HD.
  rewrite renderFrames_cons.
  rewrite (fadingIn_frame D _ (1 + D / 3) 0); simpl lastFrameTime;
    [|lra|lra|lra|lra|reflexivity|lra].
  replace (0 + (1 + D / 3 - 1) / D) with (1 / 3) by (field; lra).
  rewrite settleIn_below by lra. cbn [fst snd].
  rewrite renderFrames_cons.
  rewrite (fadingIn_frame D _ (1 + D / 2) (1 / 3)); simpl lastFrameTime;
    [|lra|lra|lra|lra|reflexivity|lra].
  replace (1 / 3 + (1 + D / 2 - (1 + D / 3)) / D) with (1 / 2) by (field; lra).
  rewrite settleIn_below by lra. cbn [fst snd].
  rewrite renderFrames_cons.
  rewrite (fadingIn_frame D _ (1 + D) (1 / 2)); simpl lastFrameTime;
    [|lra|lra|lra|lra|reflexivity|lra].
  replace (1 / 2 + (1 + D - (1 + D / 2)) / D) with 1 by (field; lra).
  rewrite settleIn_done by lra. reflexivity.
Qed.

(** C6.  A label that is placeable in every frame, with frames at the clock
    values 0, 1, 1 + D/3, 1 + D/2 and 1 + D for a fade duration D: the frame
    at 0 is ignored and submits nothing; the frame at 1 submits opacity 0;
    the frames at 1 + D/3 and 1 + D/2 submit opacities that increase
    strictly (1/3 and 1/2); the frame at 1 + D submits opacity 1. *)
Theorem C6_fade_in_single_label (D : R) :
  0 < D ->
  exists o1 o2,
    snd (renderFrames D initialRenderer
           [(0, true); (1, true); (1 + D / 3, true); (1 + D / 2, true); (1 + D, true)])
    = [None; Some 0; Some o1; Some o2; Some 1]
    /\ 0 < o1 /\ o1 < o2 /\ o2 < 1
    /\ o1 = 1 / 3 /\ o2 = 1 / 2.
Proof.
  intros HD. exists (1 / 3), (1 / 2).
  split; [|lra].
  rewrite renderFrames_cons, placeText_ignored. cbn [fst snd].
  rewrite renderFrames_cons, placeText_first by lra. cbn [fst snd].
  now rewrite fade_in_after_first_frame.
Qed.

(** The schedule of the test "Fade in single label": a frame at clock value
    0 during set-up, an extra frame at 1 while the glyphs load, in which the
    label may or may not be placed, and then the frames of C6. *)
Lemma fade_in_test_schedule (D : R) (placed : bool) :
  0 < D ->
  snd (renderFrames D initialRenderer
         [(0, true); (1, placed); (1, true); (1 + D / 3, true); (1 + D / 2, true);
          (1 + D, true)])
  = [None; (if placed then Some 0 else None); Some 0; Some (1 / 3); Some (1 / 2); Some 1].
Proof.
  intros HD.
  rewrite renderFrames_cons, placeText_ignored. cbn [fst snd].
  rewrite renderFrames_cons.
  destruct placed.
  - rewrite placeText_first by lra. cbn [fst snd].
    rewrite renderFrames_cons.
    rewrite (fadingIn_frame D _ 1 0); simpl lastFrameTime;
      [|lra|lra|lra|lra|reflexivity|lra].
    replace (0 + (1 - 1) / D) with 0 by (unfold Rdiv; ring).
    rewrite settleIn_below by lra. cbn [fst snd opacity].
    now rewrite fade_in_after_first_frame.
  - assert (Hidle : placeText D initialRenderer 1 false = (mkRenderer 1 None, None)).
    { unfold placeText. destruct (Req_dec_T 1 0) as [H|_]; [lra|]. reflexivity. }
    rewrite Hidle. cbn [fst snd].
    rewrite renderFrames_cons.
    rewrite (placeText_real D (mkRenderer 1 None) 1 true) by (simpl; lra).
    cbn [fst snd label updateFading submitted opacity].
    now rewrite fade_in_after_first_frame.
Qed.

(** C6 at a fade duration of 800 clock units. *)
Lemma C6_fade_in_single_label_witness :
  0 < 800
  /\ exists o1 o2,
       snd (renderFrames 800 initialRenderer
              [(0, true); (1, true); (1 + 800 / 3, true); (1 + 800 / 2, true);
               (1 + 800, true)])
       = [None; Some 0; Some o1; Some o2; Some 1]
       /\ 0 < o1 /\ o1 < o2 /\ o2 < 1
       /\ o1 = 1 / 3 /\ o2 = 1 / 2.
Proof.
  split; [lra|]. apply (C6_fade_in_single_label 800). lra.
Defined.

(** C7.  Let any frames have been rendered, with a fade duration D above 0.
    Every opacity that was submitted lies in [0,1].  If the label is then
    fading in, a frame at a later clock value that accepts it submits a
    strictly greater opacity; if it is fading out, a frame at a later clock
    value that does not accept it leaves a strictly smaller opacity.  If it
    is fading in and stays accepted in frames that reach a clock value D
    later, it is then Steady at opacity exactly 1; if it is fading out and
    stays unaccepted in frames that reach a clock value D later, it is then
    Gone at opacity exactly 0. *)
Theorem C7_fade_invariant (D : R) (history : list (R * bool)) :
  0 < D ->
  let r := fst (renderFrames D initialRenderer history) in
  Forall (fun out => forall o, out = Some o -> 0 <= o <= 1)
    (snd (renderFrames D initialRenderer history))
  /\ (forall ls t,
        label r = Some ls -> fade ls = FadingIn -> lastFrameTime r < t -> t <> 0 ->
        exists ls',
          placeText D r t true = (mkRenderer t (Some ls'), Some (opacity ls'))
          /\ opacity ls < opacity ls' <= 1)
  /\ (forall ls t,
        label r = Some ls -> fade ls = FadingOut -> lastFrameTime r < t -> t <> 0 ->
        exists ls',
          fst (placeText D r t false) = mkRenderer t (Some ls')
          /\ 0 <= opacity ls' < opacity ls)
  /\ (forall ls frames,
        label r = Some ls -> fade ls = FadingIn ->
        continues (lastFrameTime r) true frames ->
        lastFrameTime r + D <= lastTime (lastFrameTime r) frames ->
        label (fst (renderFrames D r frames)) = Some (mkLabelState 1 Steady))
  /\ (forall ls frames,
        label r = Some ls -> fade ls = FadingOut ->
        continues (lastFrameTime r) false frames ->
        lastFrameTime r + D <= lastTime (lastFrameTime r) frames ->
        label (fst (renderFrames D r frames)) = Some (mkLabelState 0 Gone)).
Proof.
  intros HD r.
  pose proof (renderFrames_tracked D history initialRenderer initial_tracked) as Hr.
  fold r in Hr.
  assert (Hstate : forall ls, label r = Some ls ->
                     consistent ls /\ lastFrameTime r <> 0
                     /\ ls = mkLabelState (opacity ls) (fade ls)).
  { intros ls Hls. unfold tracked in Hr. rewrite Hls in Hr.
    destruct Hr as [Hc Hl]. repeat split; try assumption. now destruct ls. }
  split; [apply renderFrames_bounded; exact initial_tracked|].
  split; [|split; [|split]].
  - intros ls t Hls Hf Hlt Ht.
    destruct (Hstate ls Hls) as (Hc & Hl & Heta).
    unfold consistent in Hc. rewrite Hf in Hc. rewrite Hf in Heta. rewrite Heta in Hls.
    pose proof (rate_pos D (t - lastFrameTime r) HD) as He.
    exists (settleIn (opacity ls + (t - lastFrameTime r) / D)).
    split; [apply fadingIn_frame; try assumption; lra|].
    unfold settleIn. destruct (Rle_dec 1 _); simpl; lra.
  - intros ls t Hls Hf Hlt Ht.
    destruct (Hstate ls Hls) as (Hc & Hl & Heta).
    unfold consistent in Hc. rewrite Hf in Hc. rewrite Hf in Heta. rewrite Heta in Hls.
    pose proof (rate_pos D (t - lastFrameTime r) HD) as He.
    exists (settleOut (opacity ls - (t - lastFrameTime r) / D)).
    split; [apply fadingOut_frame; try assumption; lra|].
    unfold settleOut. destruct (Rle_dec _ 0); simpl; lra.
  - intros ls frames Hls Hf Hc Hfar.
    destruct (Hstate ls Hls) as (Hcons & Hl & Heta).
    unfold consistent in Hcons. rewrite Hf in Hcons. rewrite Hf in Heta. rewrite Heta in Hls.
    apply (fadingIn_arrives D frames HD r (opacity ls)); try assumption.
    assert (1 <= (lastTime (lastFrameTime r) frames - lastFrameTime r) / D).
    { rewrite <- (rate_whole D HD). unfold Rdiv.
      apply Rmult_le_compat_r; [left; now apply Rinv_0_lt_compat | lra]. }
    lra.
  - intros ls frames Hls Hf Hc Hfar.
    destruct (Hstate ls Hls) as (Hcons & Hl & Heta).
    unfold consistent in Hcons. rewrite Hf in Hcons. rewrite Hf in Heta. rewrite Heta in Hls.
    apply (fadingOut_arrives D frames HD r (opacity ls)); try assumption.
    assert (1 <= (lastTime (lastFrameTime r) frames - lastFrameTime r) / D).
    { rewrite <- (rate_whole D HD). unfold Rdiv.
      apply Rmult_le_compat_r; [left; now apply Rinv_0_lt_compat | lra]. }
    lra.
Qed.

(** C7 after the first real frame of a label, at a fade duration of 800: the
    opacity submitted so far is within [0,1], and a frame at clock value 2
    raises the opacity above the 0 it started from. *)
Lemma C7_fade_invariant_witness :
  0 < 800
  /\ Forall (fun out => forall o, out = Some o -> 0 <= o <= 1)
       (snd (renderFrames 800 initialRenderer [(1, true)]))
  /\ exists ls',
       placeText 800 (mkRenderer 1 (Some (mkLabelState 0 FadingIn))) 2 true
       = (mkRenderer 2 (Some ls'), Some (opacity ls'))
       /\ 0 < opacity ls' <= 1.
Proof.
  assert (HD : 0 < 800) by lra.
  assert (Hr : fst (renderFrames 800 initialRenderer [(1, true)])
               = mkRenderer 1 (Some (mkLabelState 0 FadingIn))).
  { rewrite renderFrames_cons, placeText_first by lra. reflexivity. }
  pose proof (C7_fade_invariant 800 [(1, true)] HD) as Hinv.
  cbv zeta in Hinv. rewrite Hr in Hinv.
  destruct Hinv as (Hbounded & Hrise & _).
  split; [exact HD|]. split; [exact Hbounded|].
  apply (Hrise (mkLabelState 0 FadingIn) 2); simpl; try reflexivity; lra.
Defined.

End FadeProofs.

(** ** The OMV transforms *)

Module OmvProofs.

Import Omv OmvSpec.

Lemma ln2_pos : 0 < ln 2.
Proof. pose proof ln_lt_2. lra. Qed.

(** *** Arithmetic on finite numbers *)

Lemma div_finite (r s : R) : s <> 0 -> Num.div (Num.Fin r) (Num.Fin s) = Num.Fin (r / s).
Proof.
  intros Hs. unfold Num.div. destruct (Req_dec_T s 0); [contradiction|reflexivity].
Qed.

Lemma mul_finite (r s : R) : Num.mul (Num.Fin r) (Num.Fin s) = Num.Fin (r * s).
Proof. reflexivity. Qed.

Lemma add_finite (r s : R) : Num.add (Num.Fin r) (Num.Fin s) = Num.Fin (r + s).
Proof. reflexivity. Qed.

Lemma sub_finite (r s : R) : Num.sub (Num.Fin r) (Num.Fin s) = Num.Fin (r + - s).
Proof. reflexivity. Qed.

(** *** The cached cookie *)

Section Cookie.

Variable VTJsonDataAdapterId : string.

Lemma create_ignores_cookie (e : Num.t) (d : DecodeInfo)
    (c : option WorldTileProjectionCookie) :
  createWorldTileTransformationCookie VTJsonDataAdapterId e
    (set_worldTileProjectionCookie d c)
  = createWorldTileTransformationCookie VTJsonDataAdapterId e d.
Proof. reflexivity. Qed.

Lemma set_cookie_twice (d : DecodeInfo) (c c' : option WorldTileProjectionCookie) :
  set_worldTileProjectionCookie (set_worldTileProjectionCookie d c) c'
  = set_worldTileProjectionCookie d c'.
Proof. reflexivity. Qed.

(** A second transform for the same extents finds the decode info and the
    cookie that the first one left. *)
Lemma ensureCookie_again (e : Num.t) (d : DecodeInfo) :
  ensureCookie VTJsonDataAdapterId e (fst (ensureCookie VTJsonDataAdapterId e d))
  = ensureCookie VTJsonDataAdapterId e d.
Proof.
  assert (Hcreated :
    ensureCookie VTJsonDataAdapterId e
      (set_worldTileProjectionCookie d
         (Some (createWorldTileTransformationCookie VTJsonDataAdapterId e d)))
    = (set_worldTileProjectionCookie d
         (Some (createWorldTileTransformationCookie VTJsonDataAdapterId e d)),
       createWorldTileTransformationCookie VTJsonDataAdapterId e d)).
  { unfold ensureCookie at 1. cbn [worldTileProjectionCookie set_worldTileProjectionCookie].
    destruct (negb (Num.eqb _ e)); [|reflexivity].
    rewrite create_ignores_cookie, set_cookie_twice. reflexivity. }
  unfold ensureCookie at 2 3.
  destruct (worldTileProjectionCookie d) as [c|] eqn:Hc.
  - destruct (negb (Num.eqb (extents c) e)) eqn:He; cbn [fst].
    + exact Hcreated.
    + unfold ensureCookie. rewrite Hc, He. reflexivity.
  - cbn [fst]. exact Hcreated.
Qed.

End Cookie.

(** For positive extents and a finite level the scale that is created is
    [2 ^ level * extents], which is positive. *)
Lemma created_scale_positive (V : string) (x n : R) (d : DecodeInfo) :
  0 < x -> level d = Num.Fin n ->
  scale (createWorldTileTransformationCookie V (Num.Fin x) d)
  = Num.Fin (Rpower 2 n * x)
  /\ 0 < Rpower 2 n * x.
Proof.
  intros Hx Hn. pose proof ln2_pos as Hln.
  split.
  - unfold createWorldTileTransformationCookie. cbn [scale].
    rewrite Hn. unfold Num.Math_log2, Num.Math_log.
    destruct (Rlt_dec 0 x); [|contradiction].
    rewrite div_finite by lra. rewrite add_finite. cbn [Num.Math_pow2].
    f_equal. unfold Rpower.
    replace ((n + ln x / ln 2) * ln 2) with (n * ln 2 + ln x) by (field; lra).
    rewrite exp_plus, exp_ln by exact Hx. reflexivity.
  - apply Rmult_lt_0_compat; [apply exp_pos | exact Hx].
Qed.

(** *** The round trip *)

Section RoundTrip.

Variable EQUATORIAL_CIRCUMFERENCE : R.
Variable VTJsonDataAdapterId : string.

Hypothesis circumference_not_zero : EQUATORIAL_CIRCUMFERENCE <> 0.

Let tile2world := OmvUtils.tile2world EQUATORIAL_CIRCUMFERENCE VTJsonDataAdapterId.
Let world2tile := OmvUtils.world2tile EQUATORIAL_CIRCUMFERENCE VTJsonDataAdapterId.

Lemma world2tile_tile2world (e : Num.t) (d : DecodeInfo) (flipY : bool) (px py : R) :
  invertible (snd (ensureCookie VTJsonDataAdapterId e d)) ->
  snd (world2tile e (fst (tile2world e d (Vector2.mk (Num.Fin px) (Num.Fin py)) flipY))
         (snd (tile2world e d (Vector2.mk (Num.Fin px) (Num.Fin py)) flipY)) flipY)
  = Vector2.mk (Num.Fin px) (Num.Fin py).
Proof.
  intros (t & l & s & Ht & Hl & Hs & Hs0).
  unfold world2tile, tile2world, OmvUtils.world2tile, OmvUtils.tile2world.
  pose proof (ensureCookie_again VTJsonDataAdapterId e d) as Hagain.
  destruct (ensureCookie VTJsonDataAdapterId e d) as [d1 c] eqn:Hfirst.
  cbn [fst snd] in *. rewrite Hagain. cbn [fst snd Vector2.x Vector2.y].
  rewrite Ht, Hl, Hs.
  destruct flipY; unfold Num.ofZ; cbn [Num.neg];
    repeat first [rewrite add_finite | rewrite sub_finite | rewrite mul_finite
                 | rewrite div_finite by assumption];
    f_equal; f_equal; field; auto.
Qed.

Lemma tile2world_world2tile (e : Num.t) (d : DecodeInfo) (flipY : bool) (px py : R) :
  invertible (snd (ensureCookie VTJsonDataAdapterId e d)) ->
  snd (tile2world e (fst (world2tile e d (Vector2.mk (Num.Fin px) (Num.Fin py)) flipY))
         (snd (world2tile e d (Vector2.mk (Num.Fin px) (Num.Fin py)) flipY)) flipY)
  = Vector2.mk (Num.Fin px) (Num.Fin py).
Proof.
  intros (t & l & s & Ht & Hl & Hs & Hs0).
  unfold world2tile, tile2world, OmvUtils.world2tile, OmvUtils.tile2world.
  pose proof (ensureCookie_again VTJsonDataAdapterId e d) as Hagain.
  destruct (ensureCookie VTJsonDataAdapterId e d) as [d1 c] eqn:Hfirst.
  cbn [fst snd] in *. rewrite Hagain. cbn [fst snd Vector2.x Vector2.y].
  rewrite Ht, Hl, Hs.
  destruct flipY; unfold Num.ofZ;
    repeat first [rewrite add_finite | rewrite sub_finite | rewrite mul_finite
                 | rewrite div_finite by assumption | progress cbn [Num.neg]];
    f_equal; f_equal; field; auto.
Qed.

End RoundTrip.

(** A cookie created for positive extents, with finite level and west, can
    be inverted as soon as its top is finite. *)
Lemma created_cookie_invertible (V : string) (x n w : R) (d : DecodeInfo) :
  0 < x -> level d = Num.Fin n -> west d = Num.Fin w ->
  Num.isFinite (top (createWorldTileTransformationCookie V (Num.Fin x) d)) = true ->
  invertible (createWorldTileTransformationCookie V (Num.Fin x) d).
Proof.
  intros Hx Hn Hw Htop.
  destruct (created_scale_positive V x n d Hx Hn) as [Hs Hpos].
  destruct (top (createWorldTileTransformationCookie V (Num.Fin x) d)) as [t| | |] eqn:Ht;
    try discriminate.
  exists t, ((w + 180) / 360 * (Rpower 2 n * x)), (Rpower 2 n * x).
  split; [exact Ht|]. split; [|split; [exact Hs|lra]].
  unfold createWorldTileTransformationCookie in *. cbn [left scale] in *.
  rewrite Hs, Hw. unfold Num.ofZ. rewrite add_finite, div_finite by lra.
  reflexivity.
Qed.

(** C10, as amended.  With a circumference that is not zero, for every
    extents value and decode info whose cookie for these extents -- the
    cached one, or else the one created -- has a finite top, a finite left
    and a finite scale other than zero, for every flipY flag and every
    finite position p: [world2tile] of the result of [tile2world] of p is p,
    and [tile2world] of the result of [world2tile] of p is p, the second
    call receiving the decode info that the first one left. *)
Theorem C10_round_trip (EQUATORIAL_CIRCUMFERENCE : R) (VTJsonDataAdapterId : string)
    (e : Num.t) (d : DecodeInfo) (flipY : bool) (p : Vector2.t) :
  EQUATORIAL_CIRCUMFERENCE <> 0 ->
  invertible (snd (ensureCookie VTJsonDataAdapterId e d)) ->
  finitePosition p ->
  snd (OmvUtils.world2tile EQUATORIAL_CIRCUMFERENCE VTJsonDataAdapterId e
         (fst (OmvUtils.tile2world EQUATORIAL_CIRCUMFERENCE VTJsonDataAdapterId e d p flipY))
         (snd (OmvUtils.tile2world EQUATORIAL_CIRCUMFERENCE VTJsonDataAdapterId e d p flipY))
         flipY) = p
  /\ snd (OmvUtils.tile2world EQUATORIAL_CIRCUMFERENCE VTJsonDataAdapterId e
            (fst (OmvUtils.world2tile EQUATORIAL_CIRCUMFERENCE VTJsonDataAdapterId e d p
                    flipY))
            (snd (OmvUtils.world2tile EQUATORIAL_CIRCUMFERENCE VTJsonDataAdapterId e d p
                    flipY))
            flipY) = p.
Proof.
  intros HE Hinv (px & py & ->). split.
  - now apply world2tile_tile2world.
  - now apply tile2world_world2tile.
Qed.

Lemma earthCircumference_pos : 0 < earthCircumference.
Proof. unfold earthCircumference. lra. Qed.

(** C10 at a tile with a cached cookie for extents 4096 and the position
    (100, 200), with flipY set. *)
Lemma C10_round_trip_witness :
  earthCircumference <> 0
  /\ invertible (snd (ensureCookie vtJsonId (Num.Fin 4096) cachedDecodeInfo))
  /\ finitePosition (Vector2.mk (Num.Fin 100) (Num.Fin 200))
  /\ snd (OmvUtils.world2tile earthCircumference vtJsonId (Num.Fin 4096)
            (fst (OmvUtils.tile2world earthCircumference vtJsonId (Num.Fin 4096)
                    cachedDecodeInfo (Vector2.mk (Num.Fin 100) (Num.Fin 200)) true))
            (snd (OmvUtils.tile2world earthCircumference vtJsonId (Num.Fin 4096)
                    cachedDecodeInfo (Vector2.mk (Num.Fin 100) (Num.Fin 200)) true))
            true) = Vector2.mk (Num.Fin 100) (Num.Fin 200).
Proof.
  assert (HE : earthCircumference <> 0).
  { pose proof earthCircumference_pos. lra. }
  assert (Hinv : invertible (snd (ensureCookie vtJsonId (Num.Fin 4096) cachedDecodeInfo))).
  { unfold ensureCookie, cachedDecodeInfo, Num.eqb.
    cbn [worldTileProjectionCookie extents].
    destruct (Req_dec_T 4096 4096) as [_|H]; [|now destruct H].
    cbn [negb snd]. exists 2048, 2048, 4096. repeat split; cbn; lra. }
  assert (Hp : finitePosition (Vector2.mk (Num.Fin 100) (Num.Fin 200))).
  { exists 100, 200. reflexivity. }
  split; [exact HE|]. split; [exact Hinv|]. split; [exact Hp|].
  exact (proj1 (C10_round_trip earthCircumference vtJsonId (Num.Fin 4096) cachedDecodeInfo
                  true (Vector2.mk (Num.Fin 100) (Num.Fin 200)) HE Hinv Hp)).
Defined.

(** The cookie that extents 0 create has scale 0. *)
Lemma zero_extents_scale (V : string) :
  scale (createWorldTileTransformationCookie V (Num.Fin 0) freshDecodeInfo) = Num.Fin 0
  /\ exists l,
       left (createWorldTileTransformationCookie V (Num.Fin 0) freshDecodeInfo)
       = Num.Fin l /\ l = 0.
Proof.
  pose proof ln2_pos as Hln.
  assert (Hscale : Num.Math_pow2 (Num.add (Num.Fin 0) (Num.Math_log2 (Num.Fin 0)))
                   = Num.Fin 0).
  { unfold Num.Math_log2, Num.Math_log.
    destruct (Rlt_dec 0 0) as [H|_]; [lra|].
    destruct (Req_dec_T 0 0) as [_|H]; [|now destruct H].
    unfold Num.div. destruct (Rlt_dec (ln 2) 0) as [H|_]; [lra|]. reflexivity. }
  unfold createWorldTileTransformationCookie, freshDecodeInfo.
  cbn [scale left level west]. rewrite Hscale.
  split; [reflexivity|].
  unfold Num.ofZ. rewrite add_finite, div_finite, mul_finite by lra.
  eexists. split; [reflexivity|]. lra.
Qed.

(** The claim C10 as it stands fails: with extents 0 the scale of the cookie
    is 0, [tile2world] of (1, 0) has the first coordinate [Infinity], and
    [world2tile] of that has the first coordinate [NaN], not 1. *)
Lemma C10_counterexample :
  Vector2.x
    (snd (OmvUtils.tile2world earthCircumference vtJsonId (Num.Fin 0) freshDecodeInfo
            (Vector2.mk (Num.Fin 1) (Num.Fin 0)) false)) = Num.PInf
  /\ Vector2.x
       (snd (OmvUtils.world2tile earthCircumference vtJsonId (Num.Fin 0)
               (fst (OmvUtils.tile2world earthCircumference vtJsonId (Num.Fin 0)
                       freshDecodeInfo (Vector2.mk (Num.Fin 1) (Num.Fin 0)) false))
               (snd (OmvUtils.tile2world earthCircumference vtJsonId (Num.Fin 0)
                       freshDecodeInfo (Vector2.mk (Num.Fin 1) (Num.Fin 0)) false))
               false)) = Num.NaN
  /\ Vector2.x (Vector2.mk (Num.Fin 1) (Num.Fin 0)) = Num.Fin 1.
Proof.
  pose proof earthCircumference_pos as HE.
  destruct (zero_extents_scale vtJsonId) as (Hs & l & Hl & ->).
  unfold OmvUtils.world2tile, OmvUtils.tile2world.
  pose proof (ensureCookie_again vtJsonId (Num.Fin 0) freshDecodeInfo) as Hagain.
  assert (Hfirst : snd (ensureCookie vtJsonId (Num.Fin 0) freshDecodeInfo)
                   = createWorldTileTransformationCookie vtJsonId (Num.Fin 0)
                       freshDecodeInfo) by reflexivity.
  destruct (ensureCookie vtJsonId (Num.Fin 0) freshDecodeInfo) as [d1 c].
  cbn [fst snd] in *. rewrite Hagain. subst c. cbn [fst snd Vector2.x].
  rewrite Hs, Hl, add_finite.
  assert (Hinf : Num.mul (Num.div (Num.Fin (0 + 1)) (Num.Fin 0)) (Num.Fin earthCircumference)
                 = Num.PInf).
  { unfold Num.div.
    destruct (Req_dec_T 0 0) as [_|H]; [|now destruct H].
    destruct (Req_dec_T (0 + 1) 0) as [H|_]; [lra|].
    unfold Num.infOfSign. destruct (Rlt_dec 0 (0 + 1)) as [_|H]; [|lra].
    unfold Num.mul, Num.scaleInf.
    destruct (Req_dec_T earthCircumference 0) as [H|_]; [lra|].
    destruct (Rlt_dec 0 earthCircumference) as [_|H]; [reflexivity|lra]. }
  rewrite Hinf. split; [reflexivity|]. split; [|reflexivity].
  unfold Num.div. destruct (Rlt_dec earthCircumference 0) as [H|_]; [lra|].
  unfold Num.mul, Num.scaleInf.
  destruct (Req_dec_T 0 0) as [_|H]; [|now destruct H]. reflexivity.
Qed.

End OmvProofs.

(** ** The point-of-view feature modifier *)

Module PovProofs.

Import Pov.

Lemma nonempty_length (s : string) : Nat.ltb 0 (String.length s) = true <-> s <> EmptyString.
Proof.
  destruct s; simpl; split; intros H; try discriminate; try reflexivity.
  now destruct H.
Qed.

(** A name [prop:cc] is never the name [prop] itself. *)
Lemma append_length (a b : string) :
  String.length (String.append a b) = (String.length a + String.length b)%nat.
Proof. induction a as [|c a IH]; simpl; [reflexivity|now rewrite IH]. Qed.

Lemma povName_differs (propName cc : string) : povName propName cc <> propName.
Proof.
  unfold povName. intros H.
  assert (Hlen : String.length (String.append propName (String.append ":" cc))
                 = String.length propName) by now rewrite H.
  rewrite append_length in Hlen. simpl in Hlen. lia.
Qed.

Section Modifier.

Variable Parent : Type.
Variable lookup : MapEnv Parent -> string -> option Value.
Variable superDoProcessLineFeature : string -> MapEnv Parent -> bool.
Variable m_countriesPov : list string.

(** One turn of the loop: the value for a country code is returned, or the
    code is passed over. *)
Lemma turn (env : MapEnv Parent) (propName cc : string) :
  (exists v, lookup env (povName propName cc) = Some (VString v) /\ v <> EmptyString
             /\ forall rest, getAlternativePov lookup env (cc :: rest) propName = Some v)
  \/ (~ usable (lookup env (povName propName cc))
      /\ forall rest, getAlternativePov lookup env (cc :: rest) propName
                      = getAlternativePov lookup env rest propName).
Proof.
  simpl.
  destruct (lookup env (povName propName cc)) as [[s|r|b|]|] eqn:Hl;
    try (right; split; [intros (s' & Hs & _); discriminate | reflexivity]).
  destruct (Nat.ltb 0 (String.length s)) eqn:Hlen.
  - left. exists s. repeat split. now apply nonempty_length.
  - right. split; [|reflexivity].
    intros (s' & Hs & Hne). injection Hs as <-.
    apply nonempty_length in Hne. congruence.
Qed.

Lemma getAlternativePov_none (env : MapEnv Parent) (propName : string)
    (countryCodes : list string) :
  getAlternativePov lookup env countryCodes propName = None <->
  Forall (fun cc => ~ usable (lookup env (povName propName cc))) countryCodes.
Proof.
  induction countryCodes as [|cc rest IH].
  - split; [constructor|reflexivity].
  - destruct (turn env propName cc) as [(v & Hl & Hne & Hret)|[Hno Hskip]].
    + rewrite Hret. split; [discriminate|].
      intros Hall. exfalso. apply (Forall_inv Hall). now exists v.
    + rewrite Hskip, IH. split.
      * intros Hall. now constructor.
      * apply Forall_inv_tail.
Qed.

Lemma getAlternativePov_some (env : MapEnv Parent) (propName : string)
    (countryCodes : list string) (v : string) :
  getAlternativePov lookup env countryCodes propName = Some v <->
  exists pre cc post,
    countryCodes = pre ++ cc :: post
    /\ Forall (fun c => ~ usable (lookup env (povName propName c))) pre
    /\ lookup env (povName propName cc) = Some (VString v)
    /\ v <> EmptyString.
Proof.
  induction countryCodes as [|cc rest IH].
  - split; [discriminate|].
    intros (pre & c & post & Heq & _). destruct pre; discriminate.
  - destruct (turn env propName cc) as [(w & Hl & Hne & Hret)|[Hno Hskip]].
    + rewrite Hret. split.
      * intros Hv. injection Hv as <-. exists [], cc, rest. repeat split; auto.
      * intros (pre & c & post & Heq & Hpre & Hc & Hvne).
        destruct pre as [|c0 pre]; simpl in Heq; injection Heq as <- Hrest.
        -- congruence.
        -- exfalso. apply (Forall_inv Hpre). now exists w.
    + rewrite Hskip, IH. split.
      * intros (pre & c & post & -> & Hpre & Hc & Hvne).
        exists (cc :: pre), c, post. repeat split; auto.
      * intros (pre & c & post & Heq & Hpre & Hc & Hvne).
        destruct pre as [|c0 pre]; simpl in Heq; injection Heq as <- Hrest.
        -- exfalso. apply Hno. now exists v.
        -- exists pre, c, post. repeat split; auto. now apply Forall_inv_tail in Hpre.
Qed.

(** The answer of the loop depends on the environment through the lookups
    of the names [prop:cc] only. *)
Lemma getAlternativePov_agree (env env' : MapEnv Parent) (propName : string)
    (countryCodes : list string) :
  (forall cc, lookup env' (povName propName cc) = lookup env (povName propName cc)) ->
  getAlternativePov lookup env' countryCodes propName
  = getAlternativePov lookup env countryCodes propName.
Proof.
  intros Hsame. induction countryCodes as [|cc rest IH]; [reflexivity|].
  simpl. rewrite Hsame, IH. reflexivity.
Qed.

End Modifier.

(** X1.  [getAlternativePov] returns the value of the first country code, in
    the order of the list, whose property [prop:cc] looks up to a string
    that is not empty: it returns [v] exactly when the list splits into
    codes without such a value, a code whose value is [v], and a rest that
    is not consulted. *)
Theorem X1_getAlternativePov_first_match (Parent : Type)
    (lookup : MapEnv Parent -> string -> option Value) (env : MapEnv Parent)
    (countryCodes : list string) (propName v : string) :
  getAlternativePov lookup env countryCodes propName = Some v <->
  exists pre cc post,
    countryCodes = pre ++ cc :: post
    /\ Forall (fun c => ~ usable (lookup env (povName propName c))) pre
    /\ lookup env (povName propName cc) = Some (VString v)
    /\ v <> EmptyString.
Proof. apply getAlternativePov_some. Qed.

(** X2.  [getAlternativePov] returns [undefined] exactly when no country
    code of the list has a non-empty string under [prop:cc]: missing
    properties, values that are not strings and empty strings are all passed
    over, and an empty list gives [undefined]. *)
Theorem X2_getAlternativePov_undefined (Parent : Type)
    (lookup : MapEnv Parent -> string -> option Value) (env : MapEnv Parent)
    (countryCodes : list string) (propName : string) :
  (getAlternativePov lookup env countryCodes propName = None <->
   Forall (fun cc => ~ usable (lookup env (povName propName cc))) countryCodes)
  /\ getAlternativePov lookup env [] propName = None
  /\ (forall cc rest,
        lookup env (povName propName cc) = Some (VString EmptyString)
        \/ lookup env (povName propName cc) = None
        \/ (exists r, lookup env (povName propName cc) = Some (VNumber r))
        \/ (exists b, lookup env (povName propName cc) = Some (VBoolean b))
        \/ lookup env (povName propName cc) = Some VNull ->
        getAlternativePov lookup env (cc :: rest) propName
        = getAlternativePov lookup env rest propName).
Proof.
  split; [apply getAlternativePov_none|]. split; [reflexivity|].
  intros cc rest H. simpl.
  destruct H as [H|[H|[[r H]|[[b H]|H]]]]; rewrite H; reflexivity.
Qed.

(** What [doProcessLineFeature] returns and leaves behind. *)
Lemma doProcessLineFeature_effect (Parent : Type)
    (lookup : MapEnv Parent -> string -> option Value)
    (superDoProcessLineFeature : string -> MapEnv Parent -> bool)
    (m_countriesPov : list string) (layer : string) (env : MapEnv Parent) :
  let out := doProcessLineFeature lookup superDoProcessLineFeature m_countriesPov layer env in
  fst out = superDoProcessLineFeature layer (snd out)
  /\ parent (snd out) = parent env
  /\ (forall name, name <> "kind"%string -> entries (snd out) name = entries env name)
  /\ (layer <> "boundaries"%string -> snd out = env)
  /\ (getAlternativePov lookup env m_countriesPov "kind" = None -> snd out = env)
  /\ (forall v, layer = "boundaries"%string ->
                getAlternativePov lookup env m_countriesPov "kind" = Some v ->
                entries (snd out) "kind"%string = Some (VString v)).
Proof.
  cbv zeta. unfold doProcessLineFeature, rewriteEnvironment, updateEnvironment, isBoundary.
  cbn [fst snd].
  split; [reflexivity|].
  destruct (String.eqb layer "boundaries") eqn:Hl.
  - apply String.eqb_eq in Hl.
    destruct (getAlternativePov lookup env m_countriesPov "kind") as [v|] eqn:Hv.
    + cbn [parent entries]. repeat split; try congruence.
      * intros name Hname. unfold assign.
        apply String.eqb_neq in Hname. now rewrite Hname.
      * intros w _ Hw. injection Hw as <-. unfold assign. now rewrite String.eqb_refl.
    + repeat split; try congruence; intros; discriminate.
  - apply String.eqb_neq in Hl. repeat split; congruence.
Qed.

(** X3.  [doProcessLineFeature] hands to the inherited filter the environment
    it leaves behind, and that environment differs from the one it received
    at most in the entry [kind]: the parent and every other entry are as
    before; for a layer other than [boundaries], and when no point of view
    of the list has a value, nothing is changed at all; otherwise the entry
    [kind] is the alternative value. *)
Theorem X3_doProcessLineFeature_frame (Parent : Type)
    (lookup : MapEnv Parent -> string -> option Value)
    (superDoProcessLineFeature : string -> MapEnv Parent -> bool)
    (m_countriesPov : list string) (layer : string) (env : MapEnv Parent) :
  let out := doProcessLineFeature lookup superDoProcessLineFeature m_countriesPov layer env in
  fst out = superDoProcessLineFeature layer (snd out)
  /\ parent (snd out) = parent env
  /\ (forall name, name <> "kind"%string -> entries (snd out) name = entries env name)
  /\ (layer <> "boundaries"%string -> snd out = env)
  /\ (getAlternativePov lookup env m_countriesPov "kind" = None -> snd out = env)
  /\ (forall v, layer = "boundaries"%string ->
                getAlternativePov lookup env m_countriesPov "kind" = Some v ->
                entries (snd out) "kind"%string = Some (VString v)).
Proof. apply doProcessLineFeature_effect. Qed.

(** X4.  Let a lookup see the environment's own entries first.  After
    [doProcessLineFeature] has rewritten a feature of the layer
    [boundaries] for which a point of view of the list has a value, looking
    up [kind] gives that value. *)
Theorem X4_boundary_kind_is_rewritten (Parent : Type)
    (lookup : MapEnv Parent -> string -> option Value)
    (superDoProcessLineFeature : string -> MapEnv Parent -> bool)
    (m_countriesPov : list string) (env : MapEnv Parent) (v : string) :
  (forall e name value, entries e name = Some value -> lookup e name = Some value) ->
  getAlternativePov lookup env m_countriesPov "kind" = Some v ->
  lookup (snd (doProcessLineFeature lookup superDoProcessLineFeature m_countriesPov
                 "boundaries" env)) "kind"%string
  = Some (VString v).
Proof.
  intros Hown Hv. apply Hown.
  apply (doProcessLineFeature_effect Parent lookup superDoProcessLineFeature
           m_countriesPov "boundaries" env); [reflexivity|exact Hv].
Qed.

(** X4 at the disputed border, with the points of view of Pakistan and India
    in this order: the empty value of the first is passed over. *)
Lemma X4_boundary_kind_is_rewritten_witness :
  (forall e name value, entries e name = Some value -> ownLookup e name = Some value)
  /\ getAlternativePov ownLookup disputed ["pk"; "in"]%string "kind" = Some "disputed"%string
  /\ ownLookup (snd (doProcessLineFeature ownLookup (fun _ _ => true) ["pk"; "in"]%string
                       "boundaries" disputed)) "kind"%string
     = Some (VString "disputed").
Proof.
  assert (Hown : forall e name value,
             entries e name = Some value -> ownLookup e name = Some value)
    by (intros e name value H; exact H).
  split; [exact Hown|]. split; [reflexivity|].
  apply (X4_boundary_kind_is_rewritten unit ownLookup (fun _ _ => true)
           ["pk"; "in"]%string disputed "disputed" Hown).
  reflexivity.
Defined.

(** X5.  Let a lookup of a name depend on the environment through the entry
    of that name and the parent only.  Then rewriting is idempotent: a second
    [doProcessLineFeature] on the environment the first one left changes no
    entry and gives the inherited filter the same environment. *)
Theorem X5_rewrite_idempotent (Parent : Type)
    (lookup : MapEnv Parent -> string -> option Value)
    (superDoProcessLineFeature : string -> MapEnv Parent -> bool)
    (m_countriesPov : list string) (layer : string) (env : MapEnv Parent) :
  (forall e e' name,
      entries e name = entries e' name -> parent e = parent e' ->
      lookup e name = lookup e' name) ->
  let once := snd (doProcessLineFeature lookup superDoProcessLineFeature m_countriesPov
                     layer env) in
  let twice := snd (doProcessLineFeature lookup superDoProcessLineFeature m_countriesPov
                      layer once) in
  parent twice = parent once /\ forall name, entries twice name = entries once name.
Proof.
  intros Hlocal. cbv zeta.
  unfold doProcessLineFeature. cbn [snd]. unfold rewriteEnvironment.
  destruct (isBoundary layer); [|split; reflexivity].
  set (once := updateEnvironment lookup env m_countriesPov "kind").
  assert (Honce : parent once = parent env
                  /\ forall cc, entries once (povName "kind" cc)
                                = entries env (povName "kind" cc)).
  { unfold once, updateEnvironment.
    destruct (getAlternativePov lookup env m_countriesPov "kind"); [|split; reflexivity].
    cbn [parent entries]. split; [reflexivity|].
    intros cc. unfold assign.
    pose proof (povName_differs "kind" cc) as Hne.
    apply String.eqb_neq in Hne. now rewrite Hne. }
  destruct Honce as [Hparent Hentries].
  assert (Hsame : getAlternativePov lookup once m_countriesPov "kind"
                  = getAlternativePov lookup env m_countriesPov "kind").
  { apply getAlternativePov_agree. intros cc. now apply Hlocal. }
  unfold updateEnvironment at 1 2. rewrite Hsame.
  destruct (getAlternativePov lookup env m_countriesPov "kind") as [v|] eqn:Hv;
    [|split; reflexivity].
  cbn [parent entries]. split; [reflexivity|].
  intros name. unfold once, updateEnvironment. rewrite Hv. cbn [entries].
  unfold assign. destruct (String.eqb name "kind"); reflexivity.
Qed.

(** X5 at the disputed border. *)
Lemma X5_rewrite_idempotent_witness :
  (forall e e' name,
      entries e name = entries e' name -> parent e = parent e' ->
      ownLookup e name = ownLookup e' name)
  /\ forall name,
       entries (snd (doProcessLineFeature ownLookup (fun _ _ => true) ["pk"; "in"]%string
                       "boundaries"
                       (snd (doProcessLineFeature ownLookup (fun _ _ => true)
                               ["pk"; "in"]%string "boundaries" disputed)))) name
       = entries (snd (doProcessLineFeature ownLookup (fun _ _ => true) ["pk"; "in"]%string
                         "boundaries" disputed)) name.
Proof.
  assert (Hlocal : forall e e' name,
             entries e name = entries e' name -> parent e = parent e' ->
             ownLookup e name = ownLookup e' name)
    by (intros e e' name H _; exact H).
  split; [exact Hlocal|].
  apply (X5_rewrite_idempotent unit ownLookup (fun _ _ => true) ["pk"; "in"]%string
           "boundaries" disputed Hlocal).
Defined.

End PovProofs.

(** ** More on the pre-placement filter *)

Module PlacementMore.

Import Placement PlacementSpec PlacementProofs PlacementVariants.

Lemma computeViewDistance_throws (h : Heap) (refPosition : loc) (te : TextElement) :
  tileCenter te = None -> computeViewDistance h refPosition te = TypeError.
Proof.
  intros Hc. unfold computeViewDistance, tileCenterOf. rewrite Hc.
  destruct (points te) as [p|ps]; [reflexivity|].
  destruct (Nat.ltb 1 (List.length ps)) eqn:Hlen; [|reflexivity].
  apply Nat.ltb_lt in Hlen.
  destruct ps as [|p0 ps]; [simpl in Hlen; lia|]. reflexivity.
Qed.

(** X6.  For a text element whose [points] is one vector or an array that
    is not empty, so that it has a position, [computeViewDistance] throws
    exactly when the tile center of the text element is undefined; with a
    tile center it returns a number, for a point label as for a path. *)
Theorem X6_computeViewDistance_throws_iff (h : Heap) (refPosition : loc)
    (te : TextElement) :
  points te <> PointArray [] ->
  (computeViewDistance h refPosition te = TypeError <-> tileCenter te = None)
  /\ ((exists d, computeViewDistance h refPosition te = Normal d) <->
      exists c, tileCenter te = Some c).
Proof.
  intros _.
  destruct (tileCenter te) as [c|] eqn:Hc.
  - rewrite (computeViewDistance_value h refPosition te c Hc).
    split; split; intros H; try discriminate.
    + now exists c.
    + eexists; reflexivity.
  - rewrite (computeViewDistance_throws h refPosition te Hc).
    split; split; intros H; try reflexivity.
    + destruct H as [d H]; discriminate.
    + destruct H as [c H]; discriminate.
Qed.

(** X6 at the default path label of the test fixture. *)
Lemma X6_computeViewDistance_throws_iff_witness :
  points Examples.pathLabel <> PointArray []
  /\ (computeViewDistance Examples.heap 0%nat Examples.pathLabel = TypeError
      <-> tileCenter Examples.pathLabel = None).
Proof.
  assert (Hpoints : points Examples.pathLabel <> PointArray []) by discriminate.
  split; [exact Hpoints|].
  exact (proj1 (X6_computeViewDistance_throws_iff Examples.heap 0%nat Examples.pathLabel
                  Hpoints)).
Defined.

Lemma last_rev (ps : list loc) (d : loc) : List.last (List.rev ps) d = List.hd d ps.
Proof.
  destruct ps as [|p ps]; [reflexivity|]. simpl. now rewrite last_last.
Qed.

Lemma hd_rev (ps : list loc) (d : loc) : List.hd d (List.rev ps) = List.last ps d.
Proof.
  rewrite <- (rev_involutive ps) at 2. now rewrite last_rev.
Qed.

Lemma last_ends (a b : loc) (mid : list loc) (d : loc) :
  List.last (a :: mid ++ [b]) d = b.
Proof.
  change (a :: mid ++ [b]) with ((a :: mid) ++ [b]). apply last_last.
Qed.

(** X7.  For a path label [computeViewDistance] looks at the two ends of the
    path only: reversing the path does not change the view distance, and
    neither does replacing the points between the ends. *)
Theorem X7_path_ends_only (h : Heap) (refPosition : loc) (te : TextElement) :
  (forall ps,
      computeViewDistance h refPosition (withPoints te (PointArray (List.rev ps)))
      = computeViewDistance h refPosition (withPoints te (PointArray ps)))
  /\ (forall a b mid mid',
        computeViewDistance h refPosition
          (withPoints te (PointArray (a :: mid ++ [b])))
        = computeViewDistance h refPosition
            (withPoints te (PointArray (a :: mid' ++ [b])))).
Proof.
  split.
  - intros ps.
    destruct (tileCenter te) as [c|] eqn:Hc.
    + rewrite !(computeViewDistance_value h refPosition _ c) by exact Hc.
      f_equal. unfold specViewDistance, isPathAnchored, pathPoints, withPoints.
      cbn [points position].
      rewrite length_rev. destruct (Nat.ltb 1 (List.length ps)); [|reflexivity].
      rewrite hd_rev, last_rev. apply Rmin_comm.
    + rewrite !computeViewDistance_throws by exact Hc. reflexivity.
  - intros a b mid mid'.
    destruct (tileCenter te) as [c|] eqn:Hc.
    + rewrite !(computeViewDistance_value h refPosition _ c) by exact Hc.
      f_equal. unfold specViewDistance, isPathAnchored, pathPoints, withPoints.
      cbn [points position].
      rewrite !last_ends. cbn [List.hd].
      assert (Hl : forall m : list loc, Nat.ltb 1 (List.length (a :: m ++ [b])) = true).
      { intros m. apply Nat.ltb_lt. simpl. rewrite length_app. simpl. lia. }
      rewrite !Hl. reflexivity.
    + rewrite !computeViewDistance_throws by exact Hc. reflexivity.
Qed.

(** *** The view distance as a number *)

Lemma distanceTo_nonneg (a b : Vector3.t) : 0 <= Vector3.distanceTo a b.
Proof. unfold Vector3.distanceTo. apply sqrt_pos. Qed.

Lemma distanceTo_zero (a b : Vector3.t) : Vector3.distanceTo a b = 0 <-> a = b.
Proof.
  unfold Vector3.distanceTo, Vector3.distanceToSquared. cbv zeta.
  destruct a as [ax ay az], b as [bx b_y bz]. cbn [Vector3.x Vector3.y Vector3.z].
  split.
  - intros H.
    pose proof (Rle_0_sqr (ax - bx)) as Hx. pose proof (Rle_0_sqr (ay - b_y)) as Hy.
    pose proof (Rle_0_sqr (az - bz)) as Hz. unfold Rsqr in Hx, Hy, Hz.
    apply sqrt_eq_0 in H; [|lra].
    assert (Hx0 : (ax - bx) * (ax - bx) = 0) by lra.
    assert (Hy0 : (ay - b_y) * (ay - b_y) = 0) by lra.
    assert (Hz0 : (az - bz) * (az - bz) = 0) by lra.
    apply Rsqr_0_uniq in Hx0. apply Rsqr_0_uniq in Hy0. apply Rsqr_0_uniq in Hz0.
    f_equal; lra.
  - intros H. injection H as -> -> ->.
    replace ((bx - bx) * (bx - bx) + (b_y - b_y) * (b_y - b_y) + (bz - bz) * (bz - bz))
      with 0 by ring.
    apply sqrt_0.
Qed.

Lemma specViewDistance_nonneg (h : Heap) (refPosition : loc) (te : TextElement) (c : loc) :
  0 <= specViewDistance h refPosition te c.
Proof.
  unfold specViewDistance, offsetDistance.
  destruct (isPathAnchored te); [apply Rmin_glb|]; apply distanceTo_nonneg.
Qed.

(** X8.  Under exact arithmetic, coordinates and distances being real
    numbers without rounding, underflow or overflow: with a tile center, the
    view distance that [computeViewDistance] returns is never negative, and
    for a point label it is 0 exactly when the label, offset by the tile
    center, sits at the reference position. *)
Theorem X8_viewDistance_nonnegative (h : Heap) (refPosition : loc) (te : TextElement)
    (c : loc) :
  tileCenter te = Some c ->
  exists d,
    computeViewDistance h refPosition te = Normal d
    /\ 0 <= d
    /\ (isPathAnchored te = false ->
        (d = 0 <->
         mem h refPosition = Vector3.add (mem h (position te)) (mem h c))).
Proof.
  intros Hc. exists (specViewDistance h refPosition te c).
  split; [now apply computeViewDistance_value|].
  split; [apply specViewDistance_nonneg|].
  intros Hp. unfold specViewDistance, offsetDistance. rewrite Hp.
  apply distanceTo_zero.
Qed.

(** X8 at the default POI label of the test fixture. *)
Lemma X8_viewDistance_nonnegative_witness :
  tileCenter Examples.poiLabel = Some 2%nat
  /\ exists d,
       computeViewDistance Examples.heap 0%nat Examples.poiLabel = Normal d
       /\ 0 <= d
       /\ (isPathAnchored Examples.poiLabel = false ->
           (d = 0 <->
            mem Examples.heap 0%nat
            = Vector3.add (mem Examples.heap (position Examples.poiLabel))
                (mem Examples.heap 2%nat))).
Proof.
  split; [reflexivity|].
  apply (X8_viewDistance_nonnegative Examples.heap 0%nat Examples.poiLabel 2%nat).
  reflexivity.
Defined.

(** *** The threshold *)

Lemma checkedDistance_value (h : Heap) (te : TextElement) (c : loc) (mv : MapView)
    (max : option R) (d : R) :
  checkedDistance h te c mv max = Some d ->
  d = specViewDistance h (worldCenter mv) te c.
Proof.
  unfold checkedDistance. intros Hd.
  destruct max as [m|]; [destruct (projectionType mv)|];
    repeat match type of Hd with (if ?b then _ else _) = _ => destruct b end;
    congruence.
Qed.

Lemma checkedDistance_within (h : Heap) (te : TextElement) (c : loc) (mv : MapView)
    (m d : R) :
  checkedDistance h te c mv (Some m) = Some d -> d <= m.
Proof.
  intros Hd. pose proof (checkedDistance_value _ _ _ _ _ _ Hd) as Hv.
  unfold checkedDistance in Hd.
  destruct (projectionType mv).
  - destruct (Rleb _ m) eqn:Hle; [|discriminate]. apply Rleb_true in Hle. now rewrite Hv.
  - destruct (Rltb _ facingThreshold); [|discriminate]. simpl in Hd.
    destruct (Rleb _ m) eqn:Hle; [|discriminate]. apply Rleb_true in Hle. now rewrite Hv.
Qed.



(** X9.  For a text element with a tile center [checkViewDistance] returns
    normally; a number it returns is the view distance that
    [computeViewDistance] gives, and it does not exceed [maxViewDistance],
    under either projection. *)
Theorem X9_checkViewDistance_result (h : Heap) (te : TextElement) (mv : MapView)
    (m : R) (c : loc) :
  tileCenter te = Some c ->
  exists r,
    checkViewDistance h te mv m = Normal r
    /\ forall d, r = Some d ->
         computeViewDistance h (worldCenter mv) te = Normal d /\ 0 <= d <= m.
Proof.
  intros Hc. exists (checkedDistance h te c mv (Some m)).
  split; [now apply checkViewDistance_value|].
  intros d Hd.
  pose proof (checkedDistance_value _ _ _ _ _ _ Hd) as Hv.
  pose proof (checkedDistance_within _ _ _ _ _ _ Hd) as Hle.
  rewrite (computeViewDistance_value h (worldCenter mv) te c Hc), Hv.
  split; [reflexivity|]. split; [apply specViewDistance_nonneg|now rewrite <- Hv].
Qed.

(** X9 at the default POI label under spherical projection. *)
Lemma X9_checkViewDistance_result_witness :
  tileCenter Examples.poiLabel = Some 2%nat
  /\ exists r,
       checkViewDistance Examples.heap Examples.poiLabel Examples.globeView 10000 = Normal r
       /\ forall d, r = Some d ->
            computeViewDistance Examples.heap (worldCenter Examples.globeView)
              Examples.poiLabel = Normal d
            /\ 0 <= d <= 10000.
Proof.
  split; [reflexivity|].
  apply (X9_checkViewDistance_result Examples.heap Examples.poiLabel Examples.globeView
           10000 2%nat).
  reflexivity.
Defined.




(** *** The projection *)




(** *** The cache and the distance that is returned *)

(** X12.  [checkReadyForPlacement] consults the text element cache only for
    a candidate that has passed every earlier test: on NotReady, Invisible
    and TooFar the cache is handed back as it was received, and on Ok and
    Duplicate it is the cache that [deduplicateElement] leaves. *)
Theorem X12_cache_untouched_on_rejection (h : Heap) (te : TextElement) (tile : Tile)
    (off : R) (mv : MapView) (cache : TextElementStateCache) (max : option R)
    (lfn : option Z) :
  exists o,
    checkReadyForPlacement h te tile off mv cache max lfn = Normal o
    /\ (result o = NotReady \/ result o = Invisible \/ result o = TooFar ->
        cacheAfter o = cache)
    /\ (result o = Ok \/ result o = Duplicate ->
        cacheAfter o
        = snd (deduplicateElement cache (elementAtDistanceCheck h te tile off mv) lfn)).
Proof.
  exists (expectedOutcome h te tile off mv cache max lfn).
  split; [apply checkReadyForPlacement_outcome|].
  destruct (reachesDistanceCheck mv te) eqn:Hr.
  - destruct (expectedOutcome_reached h te tile off mv cache max lfn Hr) as (c & _ & ->).
    cbv zeta.
    destruct (checkedDistance _ _ c mv max);
      [destruct (fst (deduplicateElement _ _ lfn))|]; simpl; settle_outcome.
  - rewrite (expectedOutcome_rejected h te tile off mv cache max lfn Hr).
    destruct (negb (visible te)); [|destruct (negb (poiReady mv te))]; simpl;
      settle_outcome.
Qed.

(** X14.  For a point label that comes to the distance check and whose
    tile-center vector is apart from its position and from the world center,
    the distance computed at step 5, which is the [viewDistance] returned
    with Ok, is the distance from the world center to
    position + tile.center + (worldOffsetX, 0, 0), all read before the
    call. *)
Theorem X14_returned_view_distance (h : Heap) (te : TextElement) (tile : Tile)
    (off : R) (mv : MapView) (cache : TextElementStateCache) (max : option R)
    (lfn : option Z) :
  reachesDistanceCheck mv te = true ->
  isPathAnchored (poiElement mv te) = false ->
  cacheApart h (poiElement mv te) mv ->
  exists o,
    checkReadyForPlacement h te tile off mv cache max lfn = Normal o
    /\ computeViewDistance (heapAtDistanceCheck h te tile off mv) (worldCenter mv)
         (elementAtDistanceCheck h te tile off mv)
       = Normal (Vector3.distanceTo (mem h (worldCenter mv))
                   (worldPosition h (poiElement mv te) tile off))
    /\ (result o = Ok ->
        viewDistance o
        = Some (Vector3.distanceTo (mem h (worldCenter mv))
                  (worldPosition h (poiElement mv te) tile off))).
Proof.
  intros Hr Hpoint Hapart.
  exists (expectedOutcome h te tile off mv cache max lfn).
  split; [apply checkReadyForPlacement_outcome|].
  destruct (refreshTileCenter_spec h (poiElement mv te) tile off)
    as (c & Hte2 & Hset & Hframe & Hwhich).
  fold (elementAtDistanceCheck h te tile off mv) in Hte2.
  fold (heapAtDistanceCheck h te tile off mv) in Hset, Hframe.
  assert (Hc : tileCenter (elementAtDistanceCheck h te tile off mv) = Some c)
    by now rewrite Hte2.
  assert (Hclear : worldCenter mv <> c /\ position (poiElement mv te) <> c).
  { unfold cacheApart in Hapart.
    destruct (tileCenter (poiElement mv te)) as [c0|]; [now subst c0|].
    subst c. split; lia. }
  destruct Hclear as [Hwc Hpos].
  assert (Hvalue : specViewDistance (heapAtDistanceCheck h te tile off mv) (worldCenter mv)
                     (elementAtDistanceCheck h te tile off mv) c
                   = Vector3.distanceTo (mem h (worldCenter mv))
                       (worldPosition h (poiElement mv te) tile off)).
  { unfold specViewDistance, offsetDistance, worldPosition.
    replace (isPathAnchored (elementAtDistanceCheck h te tile off mv)) with false
      by (rewrite Hte2; symmetry; exact Hpoint).
    rewrite Hset, (Hframe _ Hwc). rewrite Hte2. cbn [position set_tileCenter].
    now rewrite (Hframe _ Hpos). }
  split; [rewrite (computeViewDistance_value _ _ _ c Hc); now rewrite Hvalue|].
  destruct (expectedOutcome_reached h te tile off mv cache max lfn Hr) as (c' & Hc' & ->).
  assert (c' = c) by congruence. subst c'. cbv zeta.
  destruct (checkedDistance _ _ c mv max) as [d|] eqn:Hd; [|intros; discriminate].
  apply checkedDistance_value in Hd. rewrite Hvalue in Hd. subst d.
  destruct (fst (deduplicateElement _ _ lfn)); [reflexivity|intros; discriminate].
Qed.

(** X14 at the label on the unit sphere, at distance 1 from the center. *)
Lemma X14_returned_view_distance_witness :
  reachesDistanceCheck Examples.globeView Examples.facingLabel = true
  /\ isPathAnchored (poiElement Examples.globeView Examples.facingLabel) = false
  /\ cacheApart Examples.heap (poiElement Examples.globeView Examples.facingLabel)
       Examples.globeView
  /\ exists o,
       checkReadyForPlacement Examples.heap Examples.facingLabel Examples.tile 0
         Examples.globeView emptyCache (Some 10000) None = Normal o
       /\ computeViewDistance
            (heapAtDistanceCheck Examples.heap Examples.facingLabel Examples.tile 0
               Examples.globeView)
            (worldCenter Examples.globeView)
            (elementAtDistanceCheck Examples.heap Examples.facingLabel Examples.tile 0
               Examples.globeView)
          = Normal (Vector3.distanceTo (mem Examples.heap (worldCenter Examples.globeView))
                      (worldPosition Examples.heap
                         (poiElement Examples.globeView Examples.facingLabel)
                         Examples.tile 0))
       /\ (result o = Ok ->
           viewDistance o
           = Some (Vector3.distanceTo
                     (mem Examples.heap (worldCenter Examples.globeView))
                     (worldPosition Examples.heap
                        (poiElement Examples.globeView Examples.facingLabel)
                        Examples.tile 0))).
Proof.
  assert (Hr : reachesDistanceCheck Examples.globeView Examples.facingLabel = true)
    by reflexivity.
  assert (Hp : isPathAnchored (poiElement Examples.globeView Examples.facingLabel) = false)
    by reflexivity.
  assert (Ha : cacheApart Examples.heap
                 (poiElement Examples.globeView Examples.facingLabel) Examples.globeView).
  { unfold cacheApart. cbn. split; lia. }
  split; [exact Hr|]. split; [exact Hp|]. split; [exact Ha|].
  exact (X14_returned_view_distance Examples.heap Examples.facingLabel Examples.tile 0
           Examples.globeView emptyCache (Some 10000) None Hr Hp Ha).
Defined.

End PlacementMore.

(** ** More on the OMV transforms *)

Module OmvMore.

Import Omv OmvSpec OmvProofs.

(** *** The cookie that is created *)

Lemma created_left (V : string) (x n w : R) (d : DecodeInfo) :
  0 < x -> level d = Num.Fin n -> west d = Num.Fin w ->
  left (createWorldTileTransformationCookie V (Num.Fin x) d)
  = Num.Fin ((w + 180) / 360 * (Rpower 2 n * x)).
Proof.
  intros Hx Hn Hw.
  destruct (created_scale_positive V x n d Hx Hn) as [Hs Hpos].
  unfold createWorldTileTransformationCookie in *. cbn [left scale] in *.
  rewrite Hs, Hw. unfold Num.ofZ. rewrite add_finite, div_finite by lra.
  reflexivity.
Qed.

(** X15.  Under exact arithmetic, numbers being real numbers without
    rounding: for positive extents, a finite level and a finite western
    longitude, [createWorldTileTransformationCookie] gives the scale
    [2 ^ level * extents], which is positive, and the left offset
    [(west + 180) / 360 * scale]; it records the extents it was given.  For a
    level that is a natural number the power is the integer power. *)
Theorem X15_created_cookie (V : string) (x n w : R) (d : DecodeInfo) :
  0 < x -> level d = Num.Fin n -> west d = Num.Fin w ->
  let c := createWorldTileTransformationCookie V (Num.Fin x) d in
  extents c = Num.Fin x
  /\ scale c = Num.Fin (Rpower 2 n * x)
  /\ 0 < Rpower 2 n * x
  /\ left c = Num.Fin ((w + 180) / 360 * (Rpower 2 n * x))
  /\ (forall k : nat, n = INR k -> scale c = Num.Fin (2 ^ k * x)).
Proof.
  intros Hx Hn Hw. cbv zeta.
  destruct (created_scale_positive V x n d Hx Hn) as [Hs Hpos].
  split; [reflexivity|]. split; [exact Hs|]. split; [exact Hpos|].
  split; [now apply created_left|].
  intros k ->. rewrite Hs. rewrite Rpower_pow by lra. reflexivity.
Qed.

(** X15 at a decode info of level 0 and extents 4096. *)
Lemma X15_created_cookie_witness :
  0 < 4096
  /\ level freshDecodeInfo = Num.Fin 0
  /\ west freshDecodeInfo = Num.Fin 0
  /\ scale (createWorldTileTransformationCookie vtJsonId (Num.Fin 4096) freshDecodeInfo)
     = Num.Fin (Rpower 2 0 * 4096).
Proof.
  assert (Hx : 0 < 4096) by lra.
  split; [exact Hx|]. split; [reflexivity|]. split; [reflexivity|].
  exact (proj1 (proj2 (X15_created_cookie vtJsonId 4096 0 0 freshDecodeInfo Hx
                         eq_refl eq_refl))).
Defined.

(** *** Where a tile lands *)

Lemma ensureCookie_fresh (V : string) (e : Num.t) (d : DecodeInfo) :
  worldTileProjectionCookie d = None ->
  ensureCookie V e d
  = (set_worldTileProjectionCookie d (Some (createWorldTileTransformationCookie V e d)),
     createWorldTileTransformationCookie V e d).
Proof. intros Hc. unfold ensureCookie. now rewrite Hc. Qed.

Lemma tile2world_x_fresh (E : R) (V : string) (x n w px : R) (py : Num.t)
    (flipY : bool) (d : DecodeInfo) :
  worldTileProjectionCookie d = None ->
  0 < x -> level d = Num.Fin n -> west d = Num.Fin w ->
  Vector2.x (snd (OmvUtils.tile2world E V (Num.Fin x) d (Vector2.mk (Num.Fin px) py) flipY))
  = Num.Fin (E * ((w + 180) / 360 + px / (Rpower 2 n * x))).
Proof.
  intros Hc Hx Hn Hw.
  destruct (created_scale_positive V x n d Hx Hn) as [Hs Hpos].
  pose proof (created_left V x n w d Hx Hn Hw) as Hl.
  unfold OmvUtils.tile2world. rewrite (ensureCookie_fresh V _ d Hc).
  cbn [snd Vector2.x]. rewrite Hs, Hl.
  assert (Hpow : 0 < Rpower 2 n) by apply exp_pos.
  rewrite add_finite, div_finite, mul_finite by lra.
  f_equal. field. lra.
Qed.

(** X16.  Under exact arithmetic, numbers being real numbers without
    rounding: for a decode info without a cached cookie, positive extents, a
    finite level and a finite western longitude, the x coordinate that
    [tile2world] gives a tile position [px] is
    [R * ((west + 180) / 360 + px / (2 ^ level * extents))] for the
    circumference R: the left edge of the tile, [px = 0], lands at
    [(west + 180) / 360 * R] whatever the extents and the level, and one
    extent further lands [R / 2 ^ level] further, the width of a tile of that
    level. *)
Theorem X16_tile2world_x (E : R) (V : string) (x n w px : R) (py : Num.t)
    (flipY : bool) (d : DecodeInfo) :
  worldTileProjectionCookie d = None ->
  0 < x -> level d = Num.Fin n -> west d = Num.Fin w ->
  Vector2.x (snd (OmvUtils.tile2world E V (Num.Fin x) d (Vector2.mk (Num.Fin px) py) flipY))
  = Num.Fin (E * ((w + 180) / 360 + px / (Rpower 2 n * x)))
  /\ Vector2.x (snd (OmvUtils.tile2world E V (Num.Fin x) d (Vector2.mk (Num.Fin 0) py) flipY))
     = Num.Fin ((w + 180) / 360 * E)
  /\ exists a b,
       Vector2.x (snd (OmvUtils.tile2world E V (Num.Fin x) d
                         (Vector2.mk (Num.Fin px) py) flipY)) = Num.Fin a
       /\ Vector2.x (snd (OmvUtils.tile2world E V (Num.Fin x) d
                            (Vector2.mk (Num.Fin (px + x)) py) flipY)) = Num.Fin b
       /\ b - a = E / Rpower 2 n.
Proof.
  intros Hc Hx Hn Hw.
  destruct (created_scale_positive V x n d Hx Hn) as [_ Hpos].
  assert (Hpow : 0 < Rpower 2 n) by apply exp_pos.
  rewrite !(tile2world_x_fresh E V x n w _ py flipY d Hc Hx Hn Hw).
  split; [reflexivity|]. split; [f_equal; field; lra|].
  eexists. eexists. split; [reflexivity|]. split; [reflexivity|].
  field. lra.
Qed.

(** X16 at the decode info of level 0 with extents 4096. *)
Lemma X16_tile2world_x_witness :
  worldTileProjectionCookie freshDecodeInfo = None
  /\ 0 < 4096
  /\ level freshDecodeInfo = Num.Fin 0
  /\ west freshDecodeInfo = Num.Fin 0
  /\ Vector2.x (snd (OmvUtils.tile2world earthCircumference vtJsonId (Num.Fin 4096)
                       freshDecodeInfo (Vector2.mk (Num.Fin 0) (Num.Fin 0)) false))
     = Num.Fin ((0 + 180) / 360 * earthCircumference).
Proof.
  assert (Hx : 0 < 4096) by lra.
  split; [reflexivity|]. split; [exact Hx|]. split; [reflexivity|]. split; [reflexivity|].
  exact (proj1 (proj2 (X16_tile2world_x earthCircumference vtJsonId 4096 0 0 0 (Num.Fin 0)
                         false freshDecodeInfo eq_refl Hx eq_refl eq_refl))).
Defined.

(** *** The cache *)

(** X17.  A cached cookie for the same extents is trusted: [tile2world] and
    [world2tile] leave such a decode info as it is and compute from the
    cached top, left and scale alone, so two decode infos that cache the
    same cookie give the same result whatever their box, level and adapter. *)
Theorem X17_cached_cookie_is_trusted (E : R) (V : string) (e : Num.t)
    (d d' : DecodeInfo) (c : WorldTileProjectionCookie) (p : Vector2.t) (flipY : bool) :
  worldTileProjectionCookie d = Some c ->
  worldTileProjectionCookie d' = Some c ->
  Num.eqb (extents c) e = true ->
  fst (OmvUtils.tile2world E V e d p flipY) = d
  /\ fst (OmvUtils.world2tile E V e d p flipY) = d
  /\ snd (OmvUtils.tile2world E V e d p flipY) = snd (OmvUtils.tile2world E V e d' p flipY)
  /\ snd (OmvUtils.world2tile E V e d p flipY) = snd (OmvUtils.world2tile E V e d' p flipY).
Proof.
  intros Hd Hd' He.
  assert (Hhit : forall d0, worldTileProjectionCookie d0 = Some c ->
                            ensureCookie V e d0 = (d0, c)).
  { intros d0 H0. unfold ensureCookie. now rewrite H0, He. }
  unfold OmvUtils.tile2world, OmvUtils.world2tile.
  rewrite (Hhit d Hd), (Hhit d' Hd'). repeat split.
Qed.

(** X17 at the decode info that caches the cookie for extents 4096, and the
    same cookie cached by a decode info of another box and level. *)
Lemma X17_cached_cookie_is_trusted_witness :
  snd (OmvUtils.tile2world earthCircumference vtJsonId (Num.Fin 4096) cachedDecodeInfo
         (Vector2.mk (Num.Fin 100) (Num.Fin 200)) false)
  = snd (OmvUtils.tile2world earthCircumference vtJsonId (Num.Fin 4096)
           (mkDecodeInfo (Num.Fin 50) (Num.Fin 10) (Num.Fin 7) "omv"
              (worldTileProjectionCookie cachedDecodeInfo))
           (Vector2.mk (Num.Fin 100) (Num.Fin 200)) false).
Proof.
  apply (X17_cached_cookie_is_trusted earthCircumference vtJsonId (Num.Fin 4096)
           cachedDecodeInfo
           (mkDecodeInfo (Num.Fin 50) (Num.Fin 10) (Num.Fin 7) "omv"
              (worldTileProjectionCookie cachedDecodeInfo))
           (mkCookie (Num.Fin 4096) (Num.Fin 2048) (Num.Fin 2048) (Num.Fin 4096))
           (Vector2.mk (Num.Fin 100) (Num.Fin 200)) false);
    try reflexivity.
  unfold Num.eqb. cbn [extents].
  destruct (Req_dec_T 4096 4096) as [_|H]; [reflexivity|now destruct H].
Defined.

(** X18.  A transform changes nothing of the decode info but the cached
    cookie, and after it the cookie that it used is cached; a further
    transform for the same extents, of either kind, leaves that decode info
    as it is. *)
Theorem X18_cookie_is_cached (E : R) (V : string) (e : Num.t) (d : DecodeInfo)
    (p q : Vector2.t) (flipY flipY' : bool) :
  let d1 := fst (OmvUtils.tile2world E V e d p flipY) in
  north d1 = north d /\ west d1 = west d /\ level d1 = level d
  /\ adapterId d1 = adapterId d
  /\ worldTileProjectionCookie d1 = Some (snd (ensureCookie V e d))
  /\ fst (OmvUtils.world2tile E V e d p flipY) = d1
  /\ fst (OmvUtils.tile2world E V e d1 q flipY') = d1
  /\ fst (OmvUtils.world2tile E V e d1 q flipY') = d1.
Proof.
  cbv zeta.
  assert (Hfst : forall d0 r b,
             fst (OmvUtils.tile2world E V e d0 r b) = fst (ensureCookie V e d0)
             /\ fst (OmvUtils.world2tile E V e d0 r b) = fst (ensureCookie V e d0)).
  { intros d0 r b. unfold OmvUtils.tile2world, OmvUtils.world2tile.
    destruct (ensureCookie V e d0); split; reflexivity. }
  rewrite !(proj1 (Hfst _ _ _)), !(proj2 (Hfst _ _ _)).
  rewrite (ensureCookie_again V e d).
  assert (Hfields : north (fst (ensureCookie V e d)) = north d
                    /\ west (fst (ensureCookie V e d)) = west d
                    /\ level (fst (ensureCookie V e d)) = level d
                    /\ adapterId (fst (ensureCookie V e d)) = adapterId d
                    /\ worldTileProjectionCookie (fst (ensureCookie V e d))
                       = Some (snd (ensureCookie V e d))).
  { unfold ensureCookie.
    destruct (worldTileProjectionCookie d) as [c|] eqn:Hc;
      [destruct (negb (Num.eqb (extents c) e))|]; cbn; repeat split; assumption. }
  destruct Hfields as (H1 & H2 & H3 & H4 & H5).
  repeat split; assumption.
Qed.

(** *** Extents that are not a number *)

Lemma add_nan_r (a : Num.t) : Num.add a Num.NaN = Num.NaN.
Proof. destruct a; reflexivity. Qed.

Lemma mul_nan_r (a : Num.t) : Num.mul a Num.NaN = Num.NaN.
Proof. destruct a; reflexivity. Qed.

Lemma div_nan_r (a : Num.t) : Num.div a Num.NaN = Num.NaN.
Proof. destruct a; reflexivity. Qed.

Lemma created_from_nan (V : string) (d : DecodeInfo) :
  createWorldTileTransformationCookie V Num.NaN d
  = mkCookie Num.NaN Num.NaN Num.NaN Num.NaN.
Proof.
  unfold createWorldTileTransformationCookie, lat2tile.
  change (Num.Math_log2 Num.NaN) with Num.NaN.
  rewrite add_nan_r. change (Num.Math_pow2 Num.NaN) with Num.NaN.
  rewrite !mul_nan_r.
  destruct (String.eqb (adapterId d) V); reflexivity.
Qed.

(** X19.  Extents that are [NaN] never hit the cache, since [NaN] is not
    equal to itself: whatever cookie is cached, the transform replaces it
    by a cookie whose fields are all [NaN], and both coordinates of its
    result are [NaN]. *)
Theorem X19_nan_extents (E : R) (V : string) (d : DecodeInfo) (p : Vector2.t)
    (flipY : bool) :
  OmvUtils.tile2world E V Num.NaN d p flipY
  = (set_worldTileProjectionCookie d
       (Some (mkCookie Num.NaN Num.NaN Num.NaN Num.NaN)),
     Vector2.mk Num.NaN Num.NaN)
  /\ OmvUtils.world2tile E V Num.NaN d p flipY
     = (set_worldTileProjectionCookie d
          (Some (mkCookie Num.NaN Num.NaN Num.NaN Num.NaN)),
        Vector2.mk Num.NaN Num.NaN).
Proof.
  assert (Hmiss : ensureCookie V Num.NaN d
                  = (set_worldTileProjectionCookie d
                       (Some (mkCookie Num.NaN Num.NaN Num.NaN Num.NaN)),
                     mkCookie Num.NaN Num.NaN Num.NaN Num.NaN)).
  { unfold ensureCookie. rewrite created_from_nan.
    destruct (worldTileProjectionCookie d) as [c|]; [|reflexivity].
    destruct (extents c); reflexivity. }
  unfold OmvUtils.tile2world, OmvUtils.world2tile. rewrite Hmiss.
  cbn [scale left top]. split; f_equal.
  rewrite !mul_nan_r. change (Num.sub Num.NaN Num.NaN) with Num.NaN.
  rewrite ?mul_nan_r. reflexivity.
Qed.

(** *** The flag flipY and the order of positions *)

Section Invertible.

Variable E : R.
Variable V : string.
Variable e : Num.t.
Variable d : DecodeInfo.
Variables t l s : R.

Hypothesis E_not_zero : E <> 0.
Hypothesis scale_not_zero : s <> 0.
Hypothesis cookie_top : top (snd (ensureCookie V e d)) = Num.Fin t.
Hypothesis cookie_left : left (snd (ensureCookie V e d)) = Num.Fin l.
Hypothesis cookie_scale : scale (snd (ensureCookie V e d)) = Num.Fin s.

Lemma tile2world_finite (px py : R) (flipY : bool) :
  snd (OmvUtils.tile2world E V e d (Vector2.mk (Num.Fin px) (Num.Fin py)) flipY)
  = Vector2.mk (Num.Fin ((l + px) / s * E))
      (Num.Fin ((t + (if flipY then - py else py)) / s * E)).
Proof using All.
  unfold OmvUtils.tile2world.
  destruct (ensureCookie V e d) as [d1 c]. cbn [fst snd Vector2.x Vector2.y] in *.
  rewrite cookie_top, cookie_left, cookie_scale.
  destruct flipY; cbn [Num.neg];
    repeat first [rewrite add_finite | rewrite mul_finite
                 | rewrite div_finite by assumption];
    reflexivity.
Qed.

Lemma world2tile_finite (d1 : DecodeInfo) (wx wy : R) (flipY : bool) :
  ensureCookie V e d1 = ensureCookie V e d ->
  snd (OmvUtils.world2tile E V e d1 (Vector2.mk (Num.Fin wx) (Num.Fin wy)) flipY)
  = Vector2.mk (Num.Fin (wx / E * s + - l))
      (Num.Fin ((if flipY then -1 else 1) * (wy / E * s + - t))).
Proof using All.
  intros Hsame. unfold OmvUtils.world2tile. rewrite Hsame.
  destruct (ensureCookie V e d) as [d2 c]. cbn [fst snd Vector2.x Vector2.y] in *.
  rewrite cookie_top, cookie_left, cookie_scale.
  destruct flipY; unfold Num.ofZ;
    repeat first [rewrite add_finite | rewrite sub_finite | rewrite mul_finite
                 | rewrite div_finite by assumption];
    reflexivity.
Qed.

End Invertible.

Lemma after_tile2world (E : R) (V : string) (e : Num.t) (d : DecodeInfo)
    (p : Vector2.t) (flipY : bool) :
  ensureCookie V e (fst (OmvUtils.tile2world E V e d p flipY)) = ensureCookie V e d.
Proof.
  unfold OmvUtils.tile2world.
  pose proof (ensureCookie_again V e d) as H.
  destruct (ensureCookie V e d) as [d1 c]. exact H.
Qed.

(** X20.  Under exact arithmetic, numbers being real numbers without
    rounding: transforming with one value of flipY and back with the other
    mirrors the tile position: for a cookie with finite offsets and a
    finite scale other than zero, [world2tile] with the opposite flag, of
    the result of [tile2world] of (x, y), is (x, -y). *)
Theorem X20_mixed_flipY_mirrors (E : R) (V : string) (e : Num.t) (d : DecodeInfo)
    (px py : R) (flipY : bool) :
  E <> 0 ->
  invertible (snd (ensureCookie V e d)) ->
  snd (OmvUtils.world2tile E V e
         (fst (OmvUtils.tile2world E V e d (Vector2.mk (Num.Fin px) (Num.Fin py)) flipY))
         (snd (OmvUtils.tile2world E V e d (Vector2.mk (Num.Fin px) (Num.Fin py)) flipY))
         (negb flipY))
  = Vector2.mk (Num.Fin px) (Num.Fin (- py)).
Proof.
  intros HE (t & l & s & Ht & Hl & Hs & Hs0).
  rewrite (tile2world_finite E V e d t l s HE Hs0 Ht Hl Hs).
  rewrite (world2tile_finite E V e d t l s HE Hs0 Ht Hl Hs)
    by apply after_tile2world.
  destruct flipY; cbn [negb]; f_equal; f_equal; field; auto.
Qed.

(** X20 at the decode info that caches the cookie for extents 4096. *)
Lemma X20_mixed_flipY_mirrors_witness :
  earthCircumference <> 0
  /\ invertible (snd (ensureCookie vtJsonId (Num.Fin 4096) cachedDecodeInfo))
  /\ snd (OmvUtils.world2tile earthCircumference vtJsonId (Num.Fin 4096)
            (fst (OmvUtils.tile2world earthCircumference vtJsonId (Num.Fin 4096)
                    cachedDecodeInfo (Vector2.mk (Num.Fin 100) (Num.Fin 200)) true))
            (snd (OmvUtils.tile2world earthCircumference vtJsonId (Num.Fin 4096)
                    cachedDecodeInfo (Vector2.mk (Num.Fin 100) (Num.Fin 200)) true))
            (negb true))
     = Vector2.mk (Num.Fin 100) (Num.Fin (- 200)).
Proof.
  assert (HE : earthCircumference <> 0).
  { pose proof earthCircumference_pos. lra. }
  assert (Hinv : invertible (snd (ensureCookie vtJsonId (Num.Fin 4096) cachedDecodeInfo))).
  { unfold ensureCookie, cachedDecodeInfo, Num.eqb.
    cbn [worldTileProjectionCookie extents].
    destruct (Req_dec_T 4096 4096) as [_|H]; [|now destruct H].
    cbn [negb snd]. exists 2048, 2048, 4096. repeat split; cbn; lra. }
  split; [exact HE|]. split; [exact Hinv|].
  exact (X20_mixed_flipY_mirrors earthCircumference vtJsonId (Num.Fin 4096)
           cachedDecodeInfo 100 200 true HE Hinv).
Defined.

(** X21.  Under exact arithmetic, numbers being real numbers without
    rounding or overflow: with a positive circumference and a cookie with
    finite offsets and a positive scale, [tile2world] keeps the order of x coordinates, keeps
    the order of y coordinates without flipY and reverses it with flipY. *)
Theorem X21_tile2world_order (E : R) (V : string) (e : Num.t) (d : DecodeInfo)
    (t l s px py qx qy : R) (flipY : bool) :
  0 < E -> 0 < s ->
  top (snd (ensureCookie V e d)) = Num.Fin t ->
  left (snd (ensureCookie V e d)) = Num.Fin l ->
  scale (snd (ensureCookie V e d)) = Num.Fin s ->
  exists ax ay bx b_y,
    snd (OmvUtils.tile2world E V e d (Vector2.mk (Num.Fin px) (Num.Fin py)) flipY)
    = Vector2.mk (Num.Fin ax) (Num.Fin ay)
    /\ snd (OmvUtils.tile2world E V e d (Vector2.mk (Num.Fin qx) (Num.Fin qy)) flipY)
       = Vector2.mk (Num.Fin bx) (Num.Fin b_y)
    /\ (px < qx <-> ax < bx)
    /\ (py < qy <-> if flipY then b_y < ay else ay < b_y).
Proof.
  intros HE Hs0 Ht Hl Hs.
  assert (HE0 : E <> 0) by lra. assert (Hs1 : s <> 0) by lra.
  rewrite !(tile2world_finite E V e d t l s HE0 Hs1 Ht Hl Hs).
  do 4 eexists. split; [reflexivity|]. split; [reflexivity|].
  assert (Hk : 0 < / s * E).
  { apply Rmult_lt_0_compat; [now apply Rinv_0_lt_compat|exact HE]. }
  assert (Hmono : forall a b, a < b <-> a / s * E < b / s * E).
  { intros a b. unfold Rdiv. rewrite !Rmult_assoc. split; intros H; nra. }
  split.
  - rewrite <- Hmono. split; intros H; lra.
  - destruct flipY; rewrite <- Hmono; split; intros H; lra.
Qed.

(** X21 at the decode info that caches the cookie for extents 4096. *)
Lemma X21_tile2world_order_witness :
  0 < earthCircumference
  /\ 0 < 4096
  /\ exists ax ay bx b_y,
       snd (OmvUtils.tile2world earthCircumference vtJsonId (Num.Fin 4096)
              cachedDecodeInfo (Vector2.mk (Num.Fin 1) (Num.Fin 2)) true)
       = Vector2.mk (Num.Fin ax) (Num.Fin ay)
       /\ snd (OmvUtils.tile2world earthCircumference vtJsonId (Num.Fin 4096)
                 cachedDecodeInfo (Vector2.mk (Num.Fin 3) (Num.Fin 4)) true)
          = Vector2.mk (Num.Fin bx) (Num.Fin b_y)
       /\ (1 < 3 <-> ax < bx)
       /\ (2 < 4 <-> if true then b_y < ay else ay < b_y).
Proof.
  assert (Hs : 0 < 4096) by lra.
  assert (Hhit : snd (ensureCookie vtJsonId (Num.Fin 4096) cachedDecodeInfo)
                 = mkCookie (Num.Fin 4096) (Num.Fin 2048) (Num.Fin 2048) (Num.Fin 4096)).
  { unfold ensureCookie, cachedDecodeInfo, Num.eqb.
    cbn [worldTileProjectionCookie extents].
    destruct (Req_dec_T 4096 4096) as [_|H]; [reflexivity|now destruct H]. }
  split; [exact earthCircumference_pos|]. split; [exact Hs|].
  apply (X21_tile2world_order earthCircumference vtJsonId (Num.Fin 4096) cachedDecodeInfo
           2048 2048 4096 1 2 3 4 true earthCircumference_pos Hs);
    rewrite Hhit; reflexivity.
Defined.

End OmvMore.

(** ** The tile row of a latitude *)

Module LatProofs.

Import Omv OmvSpec LatSpec OmvProofs.

(** *** Trigonometry between the poles *)

Lemma radians_range (lat : R) :
  -90 < lat < 90 -> - (PI / 2) < radians lat < PI / 2.
Proof.
  intros [Hlo Hhi]. pose proof PI_RGT_0 as Hpi. unfold radians. split; nra.
Qed.

Lemma radians_opp (lat : R) : radians (- lat) = - radians lat.
Proof. unfold radians. field. Qed.

Lemma sin_inside (r : R) : 0 < cos r -> -1 < sin r < 1.
Proof.
  intros Hc. pose proof (sin2_cos2 r) as H. unfold Rsqr in H. split; nra.
Qed.

Lemma tanPlusSec_ratio (r : R) : 0 < cos r -> tanPlusSec r = (1 + sin r) / cos r.
Proof. intros Hc. unfold tanPlusSec. field. lra. Qed.

Lemma tanPlusSec_pos (r : R) : 0 < cos r -> 0 < tanPlusSec r.
Proof.
  intros Hc. rewrite tanPlusSec_ratio by exact Hc.
  destruct (sin_inside r Hc) as [Hs _].
  unfold Rdiv. apply Rmult_lt_0_compat; [lra|now apply Rinv_0_lt_compat].
Qed.

(** The square of [tan + 1 / cos] is [(1 + sin) / (1 - sin)]. *)
Lemma tanPlusSec_square (r : R) :
  0 < cos r -> tanPlusSec r * tanPlusSec r * (1 - sin r) = 1 + sin r.
Proof.
  intros Hc. rewrite tanPlusSec_ratio by exact Hc.
  pose proof (sin2_cos2 r) as H. unfold Rsqr in H.
  assert (Hcc : (1 - sin r) * (1 + sin r) = cos r * cos r) by lra.
  assert (Hne : cos r <> 0) by lra.
  replace ((1 + sin r) / cos r * ((1 + sin r) / cos r) * (1 - sin r))
    with ((1 + sin r) * ((1 - sin r) * (1 + sin r)) / (cos r * cos r))
    by (field; exact Hne).
  rewrite Hcc. field. exact Hne.
Qed.

Lemma tanPlusSec_opp (r : R) : 0 < cos r -> tanPlusSec (- r) * tanPlusSec r = 1.
Proof.
  intros Hc.
  assert (Hc' : 0 < cos (- r)) by now rewrite cos_neg.
  rewrite (tanPlusSec_ratio (- r) Hc'), (tanPlusSec_ratio r Hc).
  rewrite sin_neg, cos_neg.
  pose proof (sin2_cos2 r) as H. unfold Rsqr in H.
  assert (Hcc : (1 + - sin r) * (1 + sin r) = cos r * cos r) by lra.
  assert (Hne : cos r <> 0) by lra.
  replace ((1 + - sin r) / cos r * ((1 + sin r) / cos r))
    with ((1 + - sin r) * (1 + sin r) / (cos r * cos r))
    by (field; exact Hne).
  rewrite Hcc. field. exact Hne.
Qed.

Lemma tanPlusSec_increasing (r1 r2 : R) :
  - (PI / 2) < r1 -> r1 < r2 -> r2 < PI / 2 -> tanPlusSec r1 < tanPlusSec r2.
Proof.
  intros Hlo Hlt Hhi.
  assert (Hc1 : 0 < cos r1) by (apply cos_gt_0; lra).
  assert (Hc2 : 0 < cos r2) by (apply cos_gt_0; lra).
  assert (Hsin : sin r1 < sin r2) by (apply sin_increasing_1; lra).
  destruct (sin_inside r1 Hc1) as [Hs1 Hs1'].
  destruct (sin_inside r2 Hc2) as [Hs2 Hs2'].
  pose proof (tanPlusSec_pos r1 Hc1) as Hu1.
  pose proof (tanPlusSec_pos r2 Hc2) as Hu2.
  pose proof (tanPlusSec_square r1 Hc1) as Hq1.
  pose proof (tanPlusSec_square r2 Hc2) as Hq2.
  set (u1 := tanPlusSec r1) in *. set (u2 := tanPlusSec r2) in *.
  set (s1 := sin r1) in *. set (s2 := sin r2) in *.
  destruct (Rlt_dec u1 u2) as [H|H]; [exact H|exfalso].
  assert (Hge : u2 * u2 <= u1 * u1) by nra.
  assert (Hcross : (1 + s2) * (1 - s1) <= (1 + s1) * (1 - s2)).
  { assert (H1 : u2 * u2 * ((1 - s2) * (1 - s1)) <= u1 * u1 * ((1 - s2) * (1 - s1))).
    { apply Rmult_le_compat_r; [|exact Hge].
      apply Rmult_le_pos; lra. }
    replace (u2 * u2 * ((1 - s2) * (1 - s1))) with ((u2 * u2 * (1 - s2)) * (1 - s1))
      in H1 by ring.
    replace (u1 * u1 * ((1 - s2) * (1 - s1))) with ((u1 * u1 * (1 - s1)) * (1 - s2))
      in H1 by ring.
    now rewrite Hq1, Hq2 in H1. }
  lra.
Qed.

(** The fraction falls as the latitude grows, and the fractions of a
    latitude and of its mirror image add up to one. *)
Lemma rowFraction_decreasing (lat1 lat2 : R) :
  -90 < lat1 -> lat1 < lat2 -> lat2 < 90 -> rowFraction lat2 < rowFraction lat1.
Proof.
  intros Hlo Hlt Hhi.
  destruct (radians_range lat1) as [Hr1 Hr1']; [lra|].
  destruct (radians_range lat2) as [Hr2 Hr2']; [lra|].
  pose proof PI_RGT_0 as Hpi.
  assert (Hrad : radians lat1 < radians lat2) by (unfold radians; nra).
  assert (Hc1 : 0 < cos (radians lat1)) by (apply cos_gt_0; lra).
  pose proof (tanPlusSec_increasing _ _ Hr1 Hrad Hr2') as Hinc.
  pose proof (ln_increasing _ _ (tanPlusSec_pos _ Hc1) Hinc) as Hln.
  unfold rowFraction.
  assert (Hdiv : ln (tanPlusSec (radians lat1)) / PI < ln (tanPlusSec (radians lat2)) / PI).
  { unfold Rdiv. apply Rmult_lt_compat_r; [now apply Rinv_0_lt_compat|exact Hln]. }
  lra.
Qed.

Lemma rowFraction_mirror (lat : R) :
  -90 < lat < 90 -> rowFraction lat + rowFraction (- lat) = 1.
Proof.
  intros Hlat.
  destruct (radians_range lat Hlat) as [Hr Hr'].
  assert (Hc : 0 < cos (radians lat)) by (apply cos_gt_0; lra).
  assert (Hc' : 0 < cos (- radians lat)) by now rewrite cos_neg.
  pose proof (tanPlusSec_pos _ Hc) as Hu.
  pose proof (tanPlusSec_pos _ Hc') as Hu'.
  pose proof (tanPlusSec_opp _ Hc) as Hprod.
  assert (Hln : ln (tanPlusSec (- radians lat)) = - ln (tanPlusSec (radians lat))).
  { pose proof (ln_mult _ _ Hu' Hu) as Hm. rewrite Hprod, ln_1 in Hm. lra. }
  unfold rowFraction. rewrite radians_opp, Hln.
  pose proof PI_RGT_0 as Hpi. field. lra.
Qed.

(** *** The value of [lat2tile] *)

Lemma lat2tile_value (lat zoom : R) (func : Num.t -> Num.t) :
  -90 < lat < 90 ->
  lat2tile (Num.Fin lat) (Num.Fin zoom) func
  = func (Num.Fin (rowFraction lat * Rpower 2 zoom)).
Proof.
  intros Hlat.
  destruct (radians_range lat Hlat) as [Hr Hr'].
  assert (Hc : 0 < cos (radians lat)) by (apply cos_gt_0; lra).
  pose proof (tanPlusSec_pos _ Hc) as Hu.
  pose proof PI_RGT_0 as Hpi.
  unfold lat2tile, Num.Math_PI, Num.ofZ.
  rewrite mul_finite, div_finite by lra.
  fold (radians lat).
  unfold Num.Math_tan, Num.Math_cos.
  rewrite !div_finite by lra. rewrite add_finite.
  fold (tanPlusSec (radians lat)).
  unfold Num.Math_log. destruct (Rlt_dec 0 (tanPlusSec (radians lat))) as [_|H];
    [|contradiction].
  rewrite div_finite by lra. rewrite sub_finite. rewrite div_finite by lra.
  cbn [Num.Math_pow2]. rewrite mul_finite.
  reflexivity.
Qed.

(** *** Rounding *)

Lemma Int_part_monotone (a b : R) : a <= b -> (Int_part a <= Int_part b)%Z.
Proof.
  intros Hab.
  destruct (base_Int_part a) as [Ha _]. destruct (base_Int_part b) as [_ Hb].
  destruct (Z_le_gt_dec (Int_part a) (Int_part b)) as [H|H]; [exact H|exfalso].
  assert (Hz : (Int_part b + 1 <= Int_part a)%Z) by lia.
  apply IZR_le in Hz. rewrite plus_IZR in Hz. lra.
Qed.

Lemma Int_part_half (v : R) :
  Int_part (v + 1 / 2) = Int_part v \/ Int_part (v + 1 / 2) = (Int_part v + 1)%Z.
Proof.
  destruct (base_Int_part v) as [Hv Hv']. destruct (base_Int_part (v + 1 / 2)) as [Hh Hh'].
  assert (Hlo : (Int_part v <= Int_part (v + 1 / 2))%Z)
    by (apply Int_part_monotone; lra).
  assert (Hhi : (Int_part (v + 1 / 2) < Int_part v + 2)%Z).
  { apply lt_IZR. rewrite plus_IZR. lra. }
  lia.
Qed.


Lemma floor_value (v : R) : Num.Math_floor (Num.Fin v) = Num.Fin (IZR (Int_part v)).
Proof. reflexivity. Qed.

Lemma round_value (v : R) :
  Num.Math_round (Num.Fin v) = Num.Fin (IZR (Int_part (v + 1 / 2))).
Proof. reflexivity. Qed.

Lemma rowFraction_equator : rowFraction 0 = 1 / 2.
Proof.
  unfold rowFraction, tanPlusSec.
  replace (radians 0) with 0 by (unfold radians; field).
  rewrite sin_0, cos_0.
  replace (0 / 1 + 1 / 1) with 1 by field. rewrite ln_1.
  pose proof PI_RGT_0 as Hpi. field. lra.
Qed.

(** *** The top of a created cookie *)

Lemma created_zoom (x n : R) (d : DecodeInfo) :
  0 < x -> level d = Num.Fin n ->
  Num.add (level d) (Num.Math_log2 (Num.Fin x)) = Num.Fin (n + ln x / ln 2).
Proof.
  intros Hx Hn. pose proof ln2_pos as Hln.
  rewrite Hn. unfold Num.Math_log2, Num.Math_log.
  destruct (Rlt_dec 0 x); [|contradiction].
  rewrite div_finite by lra. reflexivity.
Qed.

Lemma created_top (V : string) (x n lat : R) (d : DecodeInfo) :
  0 < x -> level d = Num.Fin n -> north d = Num.Fin lat -> -90 < lat < 90 ->
  top (createWorldTileTransformationCookie V (Num.Fin x) d)
  = (if String.eqb (adapterId d) V then Num.Math_round else Num.Math_floor)
      (Num.Fin (rowFraction lat * Rpower 2 (n + ln x / ln 2))).
Proof.
  intros Hx Hn Hnorth Hlat.
  unfold createWorldTileTransformationCookie. cbn [top].
  rewrite (created_zoom x n d Hx Hn), Hnorth.
  now apply lat2tile_value.
Qed.

Lemma created_top_finite (V : string) (x n lat : R) (d : DecodeInfo) :
  0 < x -> level d = Num.Fin n -> north d = Num.Fin lat -> -90 < lat < 90 ->
  Num.isFinite (top (createWorldTileTransformationCookie V (Num.Fin x) d)) = true.
Proof.
  intros Hx Hn Hnorth Hlat.
  rewrite (created_top V x n lat d Hx Hn Hnorth Hlat).
  destruct (String.eqb (adapterId d) V); reflexivity.
Qed.

(** *** Properties of [lat2tile] *)

(** X22.  Without rounding, the rows that [lat2tile] gives a latitude
    strictly between the poles and its mirror image south of the equator add
    up to [2 ^ zoom], the number of rows of the zoom level; the equator is
    the middle row, [2 ^ zoom / 2]. *)
Theorem X22_lat2tile_mirror (lat zoom : R) :
  -90 < lat < 90 ->
  (exists a b,
     lat2tile (Num.Fin lat) (Num.Fin zoom) unrounded = Num.Fin a
     /\ lat2tile (Num.Fin (- lat)) (Num.Fin zoom) unrounded = Num.Fin b
     /\ a + b = Rpower 2 zoom)
  /\ lat2tile (Num.Fin 0) (Num.Fin zoom) unrounded = Num.Fin (Rpower 2 zoom / 2).
Proof.
  intros Hlat.
  assert (Hopp : -90 < - lat < 90) by lra.
  assert (Hzero : -90 < 0 < 90) by lra.
  rewrite (lat2tile_value lat zoom unrounded Hlat).
  rewrite (lat2tile_value (- lat) zoom unrounded Hopp).
  rewrite (lat2tile_value 0 zoom unrounded Hzero).
  unfold unrounded. split.
  - eexists. eexists. split; [reflexivity|]. split; [reflexivity|].
    rewrite <- Rmult_plus_distr_r, (rowFraction_mirror lat Hlat). ring.
  - rewrite rowFraction_equator. f_equal. field.
Qed.

(** X22 at latitude 45 and zoom 3. *)
Lemma X22_lat2tile_mirror_witness :
  -90 < 45 < 90
  /\ lat2tile (Num.Fin 0) (Num.Fin 3) unrounded = Num.Fin (Rpower 2 3 / 2).
Proof.
  assert (Hlat : -90 < 45 < 90) by lra.
  split; [exact Hlat|].
  exact (proj2 (X22_lat2tile_mirror 45 3 Hlat)).
Defined.

(** X23.  Under exact arithmetic, numbers being real numbers and
    [Math.tan], [Math.cos] and [Math.log] the real functions, the row falls
    as the latitude grows: for two latitudes strictly
    between the poles, the more northern one gets a row that is at most the
    row of the other, with [Math.floor] and with [Math.round], and both rows
    are integers. *)
Theorem X23_lat2tile_antitone (lat1 lat2 zoom : R) :
  -90 < lat1 -> lat1 <= lat2 -> lat2 < 90 ->
  (exists r1 r2 : Z,
     lat2tile (Num.Fin lat1) (Num.Fin zoom) Num.Math_floor = Num.Fin (IZR r1)
     /\ lat2tile (Num.Fin lat2) (Num.Fin zoom) Num.Math_floor = Num.Fin (IZR r2)
     /\ (r2 <= r1)%Z)
  /\ (exists r1 r2 : Z,
        lat2tile (Num.Fin lat1) (Num.Fin zoom) Num.Math_round = Num.Fin (IZR r1)
        /\ lat2tile (Num.Fin lat2) (Num.Fin zoom) Num.Math_round = Num.Fin (IZR r2)
        /\ (r2 <= r1)%Z).
Proof.
  intros Hlo Hle Hhi.
  assert (H1 : -90 < lat1 < 90) by lra.
  assert (H2 : -90 < lat2 < 90) by lra.
  assert (Hfrac : rowFraction lat2 <= rowFraction lat1).
  { destruct (Rle_lt_or_eq_dec _ _ Hle) as [Hlt| ->]; [|lra].
    pose proof (rowFraction_decreasing lat1 lat2 Hlo Hlt Hhi). lra. }
  assert (Hpow : 0 < Rpower 2 zoom) by apply exp_pos.
  assert (Hrow : rowFraction lat2 * Rpower 2 zoom <= rowFraction lat1 * Rpower 2 zoom).
  { apply Rmult_le_compat_r; lra. }
  rewrite !(lat2tile_value lat1 zoom _ H1), !(lat2tile_value lat2 zoom _ H2).
  rewrite !floor_value, !round_value. split.
  - eexists. eexists. split; [reflexivity|]. split; [reflexivity|].
    now apply Int_part_monotone.
  - eexists. eexists. split; [reflexivity|]. split; [reflexivity|].
    apply Int_part_monotone. lra.
Qed.

(** X23 at the latitudes 0 and 45 and zoom 3. *)
Lemma X23_lat2tile_antitone_witness :
  -90 < 0 /\ 0 <= 45 /\ 45 < 90
  /\ exists r1 r2 : Z,
       lat2tile (Num.Fin 0) (Num.Fin 3) Num.Math_floor = Num.Fin (IZR r1)
       /\ lat2tile (Num.Fin 45) (Num.Fin 3) Num.Math_floor = Num.Fin (IZR r2)
       /\ (r2 <= r1)%Z.
Proof.
  assert (Hlo : -90 < 0) by lra.
  assert (Hle : 0 <= 45) by lra.
  assert (Hhi : 45 < 90) by lra.
  split; [exact Hlo|]. split; [exact Hle|]. split; [exact Hhi|].
  exact (proj1 (X23_lat2tile_antitone 0 45 3 Hlo Hle Hhi)).
Defined.



(** X25.  The adapter decides the rounding of the top offset and nothing
    else: for two decode infos of one box and level, positive extents and a
    north edge strictly between the poles, the cookie created for the
    VT-JSON adapter has the top that any other adapter gets or that top plus
    one, and the same left offset and scale. *)
Theorem X25_adapter_rounding (V : string) (x n lat : R) (d1 d2 : DecodeInfo) :
  0 < x -> -90 < lat < 90 ->
  north d1 = Num.Fin lat -> north d2 = Num.Fin lat ->
  level d1 = Num.Fin n -> level d2 = Num.Fin n ->
  west d1 = west d2 ->
  adapterId d1 = V -> adapterId d2 <> V ->
  let c1 := createWorldTileTransformationCookie V (Num.Fin x) d1 in
  let c2 := createWorldTileTransformationCookie V (Num.Fin x) d2 in
  (exists t : Z,
     top c2 = Num.Fin (IZR t)
     /\ (top c1 = Num.Fin (IZR t) \/ top c1 = Num.Fin (IZR (t + 1))))
  /\ left c1 = left c2
  /\ scale c1 = scale c2.
Proof.
  intros Hx Hlat Hn1 Hn2 Hl1 Hl2 Hw Ha1 Ha2. cbv zeta.
  rewrite (created_top V x n lat d1 Hx Hl1 Hn1 Hlat).
  rewrite (created_top V x n lat d2 Hx Hl2 Hn2 Hlat).
  apply String.eqb_eq in Ha1. apply String.eqb_neq in Ha2. rewrite Ha1, Ha2.
  rewrite floor_value, round_value.
  split; [|split].
  - eexists. split; [reflexivity|].
    destruct (Int_part_half (rowFraction lat * Rpower 2 (n + ln x / ln 2))) as [H|H];
      rewrite H; [left|right]; reflexivity.
  - unfold createWorldTileTransformationCookie. cbn [left]. now rewrite Hw, Hl1, Hl2.
  - unfold createWorldTileTransformationCookie. cbn [scale]. now rewrite Hl1, Hl2.
Qed.

(** X25 at the decode info of level 0 on the equator, once for the adapter
    "omv" and once for "vt-json", with extents 4096. *)
Lemma X25_adapter_rounding_witness :
  0 < 4096 /\ -90 < 0 < 90
  /\ adapterId (mkDecodeInfo (Num.Fin 0) (Num.Fin 0) (Num.Fin 0) vtJsonId None) = vtJsonId
  /\ adapterId freshDecodeInfo <> vtJsonId
  /\ scale (createWorldTileTransformationCookie vtJsonId (Num.Fin 4096)
              (mkDecodeInfo (Num.Fin 0) (Num.Fin 0) (Num.Fin 0) vtJsonId None))
     = scale (createWorldTileTransformationCookie vtJsonId (Num.Fin 4096) freshDecodeInfo).
Proof.
  assert (Hx : 0 < 4096) by lra.
  assert (Hlat : -90 < 0 < 90) by lra.
  assert (Hid : adapterId freshDecodeInfo <> vtJsonId) by discriminate.
  split; [exact Hx|]. split; [exact Hlat|]. split; [reflexivity|]. split; [exact Hid|].
  exact (proj2 (proj2 (X25_adapter_rounding vtJsonId 4096 0 0
                         (mkDecodeInfo (Num.Fin 0) (Num.Fin 0) (Num.Fin 0) vtJsonId None)
                         freshDecodeInfo Hx Hlat eq_refl eq_refl eq_refl eq_refl eq_refl
                         eq_refl Hid))).
Defined.

(** X26.  Under exact arithmetic, numbers being real numbers without
    rounding: a decode info without a cached cookie whose box has its north
    edge strictly between the poles, a finite western longitude and a finite
    level can always be transformed back and forth: for positive extents and
    a circumference other than zero, [world2tile] undoes [tile2world] and
    [tile2world] undoes [world2tile] at every finite position and for either
    flag, and the cookie the first call leaves in the decode info has a
    finite top, a finite left and a positive scale. *)
Theorem X26_fresh_round_trip (E : R) (V : string) (x n w lat : R) (d : DecodeInfo)
    (flipY : bool) (px py : R) :
  E <> 0 -> 0 < x -> -90 < lat < 90 ->
  worldTileProjectionCookie d = None ->
  north d = Num.Fin lat -> west d = Num.Fin w -> level d = Num.Fin n ->
  let p := Vector2.mk (Num.Fin px) (Num.Fin py) in
  snd (OmvUtils.world2tile E V (Num.Fin x)
         (fst (OmvUtils.tile2world E V (Num.Fin x) d p flipY))
         (snd (OmvUtils.tile2world E V (Num.Fin x) d p flipY)) flipY) = p
  /\ snd (OmvUtils.tile2world E V (Num.Fin x)
            (fst (OmvUtils.world2tile E V (Num.Fin x) d p flipY))
            (snd (OmvUtils.world2tile E V (Num.Fin x) d p flipY)) flipY) = p
  /\ exists c t l s,
       worldTileProjectionCookie (fst (OmvUtils.tile2world E V (Num.Fin x) d p flipY))
       = Some c
       /\ top c = Num.Fin t /\ left c = Num.Fin l /\ scale c = Num.Fin s /\ 0 < s.
Proof.
  intros HE Hx Hlat Hnone Hnorth Hwest Hlevel. cbv zeta.
  pose proof (created_top_finite V x n lat d Hx Hlevel Hnorth Hlat) as Htop.
  pose proof (created_cookie_invertible V x n w d Hx Hlevel Hwest Htop) as Hinv.
  assert (Hens : invertible (snd (ensureCookie V (Num.Fin x) d))).
  { rewrite (OmvMore.ensureCookie_fresh V _ d Hnone). exact Hinv. }
  split; [now apply world2tile_tile2world|].
  split; [now apply tile2world_world2tile|].
  destruct (created_scale_positive V x n d Hx Hlevel) as [Hs Hpos].
  destruct Hinv as (t & l & s & Ht & Hl & Hs' & _).
  exists (createWorldTileTransformationCookie V (Num.Fin x) d), t, l, (Rpower 2 n * x).
  unfold OmvUtils.tile2world. rewrite (OmvMore.ensureCookie_fresh V _ d Hnone).
  cbn [fst worldTileProjectionCookie set_worldTileProjectionCookie].
  repeat split; assumption.
Qed.

(** X26 at the decode info of level 0 on the equator, extents 4096 and the
    position (100, 200). *)
Lemma X26_fresh_round_trip_witness :
  earthCircumference <> 0 /\ 0 < 4096 /\ -90 < 0 < 90
  /\ worldTileProjectionCookie freshDecodeInfo = None
  /\ snd (OmvUtils.world2tile earthCircumference vtJsonId (Num.Fin 4096)
            (fst (OmvUtils.tile2world earthCircumference vtJsonId (Num.Fin 4096)
                    freshDecodeInfo (Vector2.mk (Num.Fin 100) (Num.Fin 200)) true))
            (snd (OmvUtils.tile2world earthCircumference vtJsonId (Num.Fin 4096)
                    freshDecodeInfo (Vector2.mk (Num.Fin 100) (Num.Fin 200)) true))
            true) = Vector2.mk (Num.Fin 100) (Num.Fin 200).
Proof.
  assert (HE : earthCircumference <> 0).
  { pose proof earthCircumference_pos. lra. }
  assert (Hx : 0 < 4096) by lra.
  assert (Hlat : -90 < 0 < 90) by lra.
  split; [exact HE|]. split; [exact Hx|]. split; [exact Hlat|]. split; [reflexivity|].
  exact (proj1 (X26_fresh_round_trip earthCircumference vtJsonId 4096 0 0 0
                  freshDecodeInfo true 100 200 HE Hx Hlat eq_refl eq_refl eq_refl
                  eq_refl)).
Defined.

End LatProofs.
